(** * bboard: the board state of the Pommerman simulation

    A shallow embedding of [src/bboard/bboard.hpp]: the packed cell and
    bomb encodings, the fixed-size circular queue [FixedQueue] and the
    mutation primitives of [State] that are defined in the header
    ([PutItem], [Kill], [operator[]]).

    Conventions.
    - A C++ [int] is a [Z]; arithmetic that can leave the 32-bit range is
      written with the wrap-around of two's complement ([Int.wrap]).
    - A C array [T a[N]] is a [list T] of length [N]; an access outside
      of the array is undefined behaviour in the source and is the
      failure [None] here.
    - A member function that mutates its object is a computation in the
      state-and-failure monad [M S A := S -> option (A * S)]. *)

From Stdlib Require Import ZArith Lia.
From stdpp Require Import base tactics option list list_numbers numbers.

Local Open Scope Z_scope.

(** ** 32-bit signed integers *)

Module Int.

Definition min_signed : Z := - 2 ^ 31.
Definition max_signed : Z := 2 ^ 31 - 1.

Definition in_range (z : Z) : Prop := min_signed <= z <= max_signed.

(** Two's complement wrap-around into [min_signed .. max_signed]. *)
Definition wrap (z : Z) : Z := (z + 2 ^ 31) mod 2 ^ 32 - 2 ^ 31.

Definition add (a b : Z) : Z := wrap (a + b).
Definition sub (a b : Z) : Z := wrap (a - b).
Definition shl (a b : Z) : Z := wrap (Z.shiftl a b).
Definition shr (a b : Z) : Z := Z.shiftr a b.
(** [%] of C++ truncates towards zero, as [Z.rem] does. *)
Definition rem (a b : Z) : Z := Z.rem a b.

End Int.

(** ** Constants *)

Definition MOVE_COUNT : Z := 4.
Definition AGENT_COUNT : Z := 4.
Definition BOARD_SIZE : Z := 11.
Definition BOMB_LIFETIME : Z := 10.
Definition BOMB_DEFAULT_STRENGTH : Z := 1.
Definition FLAME_LIFETIME : Z := 4.
Definition MAX_BOMBS_PER_AGENT : Z := 5.
Definition MAX_BOMBS : Z := AGENT_COUNT * MAX_BOMBS_PER_AGENT.

(** ** Items and the cell predicates *)

Module Item.

Definition PASSAGE : Z := 0.
Definition RIGID : Z := 1.
Definition WOOD : Z := Int.shl 2 8.
Definition BOMB : Z := 3.
Definition FLAMES : Z := Int.shl 4 16.
Definition FOG : Z := 5.
Definition EXTRABOMB : Z := 6.
Definition INCRRANGE : Z := 7.
Definition KICK : Z := 8.
Definition AGENTDUMMY : Z := 9.
Definition AGENT0 : Z := Int.shl 1 24.
Definition AGENT1 : Z := Int.add (Int.shl 1 24) 1.
Definition AGENT2 : Z := Int.add (Int.shl 1 24) 2.
Definition AGENT3 : Z := Int.add (Int.shl 1 24) 3.

End Item.

Definition IS_WOOD (x : Z) : bool := Int.shr x 8 =? 2.
Definition IS_POWERUP (x : Z) : bool := (5 <? x) && (x <? 9).
Definition IS_WALKABLE (x : Z) : bool := IS_POWERUP x || (x =? 0).
Definition IS_FLAME (x : Z) : bool := Int.shr x 16 =? 4.

Definition FLAME_ID (x : Z) : Z := Int.shr (Z.land x 0xFFFF) 3.
Definition FLAME_POWFLAG (x : Z) : Z := Z.land x 3.
Definition WOOD_POWFLAG (x : Z) : Z := Z.land x 3.

(** The cell values the game writes on the board: the plain enumerators,
    a wood cell [WOOD + flag] with a two-bit flag, a flame cell
    [FLAMES + payload] with a 16-bit payload, and the four agents. *)
Inductive Cell : Type :=
  | CPassage | CRigid
  | CWood (flag : Z)
  | CBomb
  | CFlames (payload : Z)
  | CFog | CExtraBomb | CIncrRange | CKick
  | CAgent0 | CAgent1 | CAgent2 | CAgent3.

Definition cell_value (c : Cell) : Z :=
  match c with
  | CPassage => Item.PASSAGE
  | CRigid => Item.RIGID
  | CWood flag => Int.add Item.WOOD flag
  | CBomb => Item.BOMB
  | CFlames payload => Int.add Item.FLAMES payload
  | CFog => Item.FOG
  | CExtraBomb => Item.EXTRABOMB
  | CIncrRange => Item.INCRRANGE
  | CKick => Item.KICK
  | CAgent0 => Item.AGENT0
  | CAgent1 => Item.AGENT1
  | CAgent2 => Item.AGENT2
  | CAgent3 => Item.AGENT3
  end.

Definition cell_defined (c : Cell) : Prop :=
  match c with
  | CWood flag => 0 <= flag <= 3
  | CFlames payload => 0 <= payload <= 0xFFFF
  | _ => True
  end.

Definition is_walkable_cell (c : Cell) : bool :=
  match c with
  | CPassage | CExtraBomb | CIncrRange | CKick => true
  | _ => false
  end.

(** ** Bombs *)

Definition Bomb : Type := Z.

Definition BMB_POS (x : Z) : Z := Z.land x 0xFF.
Definition BMB_POS_X (x : Z) : Z := Z.land x 0xF.
Definition BMB_POS_Y (x : Z) : Z := Int.shr (Z.land x 0xF0) 4.
Definition BMB_ID (x : Z) : Z := Int.shr (Z.land x 0xF00) 8.
Definition BMB_STRENGTH (x : Z) : Z := Int.shr (Z.land x 0xF000) 12.
Definition BMB_TIME (x : Z) : Z := Int.shr (Z.land x 0xF0000) 16.

Definition cmask0_4 : Z := Z.lnot 0xF.
Definition cmask4_8 : Z := Z.lnot 0xF0.
Definition cmask8_12 : Z := Z.lnot 0xF00.
Definition cmask12_16 : Z := Z.lnot 0xF000.
Definition cmask16_r : Z := 0xFFFF.

Definition ReduceBombTimer (bomb : Bomb) : Bomb :=
  Int.sub bomb (Int.shl 1 16).

Definition SetBombPosition (bomb : Bomb) (x y : Z) : Bomb :=
  Int.add (Int.add (Z.land (Z.land bomb cmask0_4) cmask4_8) x) (Int.shl y 4).

Definition SetBombID (bomb : Bomb) (id : Z) : Bomb :=
  Int.add (Z.land bomb cmask8_12) (Int.shl id 8).

Definition SetBombStrength (bomb : Bomb) (strength : Z) : Bomb :=
  Int.add (Z.land bomb cmask12_16) (Int.shl strength 12).

Definition SetBombTime (bomb : Bomb) (time : Z) : Bomb :=
  Int.add (Z.land bomb cmask16_r) (Int.shl time 16).

(** ** Arrays and the state-and-failure monad *)

(** [a[i]] as an r-value: [None] outside of the array. *)
Definition arr_get {T : Type} (a : list T) (i : Z) : option T :=
  if decide (0 <= i) then a !! Z.to_nat i else None.

(** [a[i] = v]: [None] outside of the array. *)
Definition arr_set {T : Type} (a : list T) (i : Z) (v : T) : option (list T) :=
  if decide (0 <= i < Z.of_nat (length a))
  then Some (<[Z.to_nat i := v]> a) else None.

Definition M (S A : Type) : Type := S -> option (A * S).

Definition ret {S A : Type} (a : A) : M S A := fun s => Some (a, s).

Definition bind {S A B : Type} (m : M S A) (f : A -> M S B) : M S B :=
  fun s => match m s with
           | Some (a, s') => f a s'
           | None => None
           end.

Definition get {S : Type} : M S S := fun s => Some (s, s).
Definition put {S : Type} (s : S) : M S unit := fun _ => Some (tt, s).

(** An undefined access makes the whole computation undefined. *)
Definition lift {S A : Type} (o : option A) : M S A :=
  fun s => match o with
           | Some a => Some (a, s)
           | None => None
           end.

Declare Scope monad_scope.
Delimit Scope monad_scope with monad.
Notation "x <- m ;; k" := (bind m (fun x => k))
  (at level 100, m at next level, right associativity) : monad_scope.
Notation "m ;; k" := (bind m (fun _ => k))
  (at level 100, right associativity) : monad_scope.
Local Open Scope monad_scope.

(** [body] for each [i] of [range], in order: the iterations of a
    [for] loop over [i]. *)
Fixpoint for_each {S : Type} (range : list Z) (body : Z -> M S unit)
    : M S unit :=
  match range with
  | [] => ret tt
  | i :: range' => body i ;; for_each range' body
  end.

(** ** FixedQueue *)

Record FixedQueue (T : Type) : Type := mkFixedQueue {
  queue : list T;
  index : Z;
  count : Z
}.
Arguments mkFixedQueue {T} _ _ _.
Arguments queue {T} _.
Arguments index {T} _.
Arguments count {T} _.

Section FixedQueueOps.

Context {T : Type}.
(** The template parameter. *)
Variable TSize : Z.

(** A default-constructed queue: [index = 0], [count = 0], and the
    array holds whatever [storage] it is given. *)
Definition FixedQueue_new (storage : list T) : FixedQueue T :=
  mkFixedQueue storage 0 0.

Definition RemainingCapacity (q : FixedQueue T) : Z :=
  Int.sub TSize (count q).

Definition PopElem : M (FixedQueue T) T :=
  q <- get ;;
  let x := index q in
  let q1 := mkFixedQueue (queue q) (Int.rem (Int.add (index q) 1) TSize)
              (count q) in
  let q2 := mkFixedQueue (queue q1) (index q1) (Int.sub (count q1) 1) in
  put q2 ;;
  lift (arr_get (queue q2) (Int.rem x TSize)).

(** [NextPos] returns a reference to a slot of the array: the position
    of that slot. *)
Definition NextPos (q : FixedQueue T) : Z :=
  Int.rem (Int.add (index q) (count q)) TSize.

Definition AddElem (elem : T) : M (FixedQueue T) unit :=
  q <- get ;;
  a <- lift (arr_set (queue q) (NextPos q) elem) ;;
  let q1 := mkFixedQueue a (index q) (count q) in
  put (mkFixedQueue (queue q1) (index q1) (Int.add (count q1) 1)).

(** The body of the loop of [RemoveAt]. *)
Definition RemoveAt_body (i : Z) : M (FixedQueue T) unit :=
  q <- get ;;
  let translatedIndex := Int.rem (Int.add (index q) i) TSize in
  e <- lift (arr_get (queue q) translatedIndex) ;;
  a <- lift (arr_set (queue q)
               (Int.rem (Int.add (Int.sub translatedIndex 1) TSize) TSize)
               e) ;;
  put (mkFixedQueue a (index q) (count q)).

(** [for (int i = removeAt + 1; i < count; i++)]: the body does not
    change [count], so [i] runs over [removeAt + 1 .. count - 1]. *)
Definition RemoveAt (removeAt : Z) : M (FixedQueue T) unit :=
  q <- get ;;
  let first := Int.add removeAt 1 in
  for_each (seqZ first (count q - first)) RemoveAt_body ;;
  q' <- get ;;
  put (mkFixedQueue (queue q') (index q') (Int.sub (count q') 1)).

(** [operator[]] *)
Definition FixedQueue_at (offset : Z) : M (FixedQueue T) T :=
  q <- get ;;
  lift (arr_get (queue q) (Int.rem (Int.add (index q) offset) TSize)).

(** [AddElem] for each element of [l], first to last. *)
Fixpoint AddElems (l : list T) : M (FixedQueue T) unit :=
  match l with
  | [] => ret tt
  | e :: l' => AddElem e ;; AddElems l'
  end.

(** [n] successive calls of [PopElem], with what they return. *)
Fixpoint PopElems (n : nat) : M (FixedQueue T) (list T) :=
  match n with
  | O => ret []
  | S n' => e <- PopElem ;; l <- PopElems n' ;; ret (e :: l)
  end.

(** The logical contents of a queue, front first: the slots
    [index, index + 1, ..] modulo [TSize], [count] of them. *)
Definition logical (q : FixedQueue T) (i : nat) : option T :=
  queue q !! Z.to_nat ((index q + Z.of_nat i) mod TSize).

Definition well_formed (q : FixedQueue T) : Prop :=
  Z.of_nat (length (queue q)) = TSize
  /\ 0 <= index q < TSize
  /\ 0 <= count q <= TSize.

(** [holds q l]: the queue [q] holds the elements [l], front first. *)
Definition holds (q : FixedQueue T) (l : list T) : Prop :=
  well_formed q
  /\ count q = Z.of_nat (length l)
  /\ forall i : nat, (i < length l)%nat -> logical q i = l !! i.

(** What slot [t] holds when the loop of [RemoveAt r] is about to
    copy slot [m]: the slots [r .. m - 2] have received their
    successors. *)
Definition shifted (l : list T) (r : nat) (m : Z) (t : nat) : option T :=
  if decide (Z.of_nat r <= Z.of_nat t < m - 1) then l !! S t else l !! t.

Definition RemoveAt_inv (q : FixedQueue T) (l : list T) (r : nat) (m : Z)
    (q' : FixedQueue T) : Prop :=
  well_formed q' /\ index q' = index q /\ count q' = count q
  /\ forall t : nat, (t < length l)%nat ->
       logical q' t = shifted l r m t.

End FixedQueueOps.

(** ** Positions, agents, flames, the state *)

Module Position.
Record t : Type := mk { x : Z; y : Z }.
End Position.

Module AgentInfo.
Record t : Type := mk {
  x : Z;
  y : Z;
  bombCount : Z;
  maxBombCount : Z;
  bombStrength : Z;
  canKick : bool;
  dead : bool
}.

(** The default member initialisers; [x] and [y] have none. *)
Definition new (x y : Z) : t :=
  mk x y 0 1 BOMB_DEFAULT_STRENGTH false false.

Definition set_dead (a : t) (d : bool) : t :=
  mk (x a) (y a) (bombCount a) (maxBombCount a) (bombStrength a)
    (canKick a) d.
End AgentInfo.

Module Flame.
Record t : Type := mk {
  position : Position.t;
  timeLeft : Z;
  strength : Z
}.
End Flame.

Record State : Type := mkState {
  board : list (list Z);
  timeStep : Z;
  aliveAgents : Z;
  agents : list AgentInfo.t;
  bombs : FixedQueue Bomb;
  flames : FixedQueue Flame.t
}.

(** A default-constructed [State]: the members without an initialiser
    (the board, the agents' positions, the storage of the two queues)
    hold what they are given. *)
Definition State_new (board : list (list Z)) (positions : list (Z * Z))
    (bombStorage : list Bomb) (flameStorage : list Flame.t) : State :=
  mkState board 0 AGENT_COUNT
    (map (fun p => AgentInfo.new (fst p) (snd p)) positions)
    (FixedQueue_new bombStorage) (FixedQueue_new flameStorage).

Definition PutItem (x y : Z) (item : Z) : M State unit :=
  s <- get ;;
  row <- lift (arr_get (board s) y) ;;
  row' <- lift (arr_set row x item) ;;
  b <- lift (arr_set (board s) y row') ;;
  put (mkState b (timeStep s) (aliveAgents s) (agents s) (bombs s) (flames s)).

(** [State::operator[]] *)
Definition State_at (pos : Position.t) : M State Z :=
  s <- get ;;
  row <- lift (arr_get (board s) (Position.y pos)) ;;
  lift (arr_get row (Position.x pos)).

Definition Kill (agentID : Z) : M State unit :=
  s <- get ;;
  a <- lift (arr_get (agents s) agentID) ;;
  if negb (AgentInfo.dead a) then
    ags <- lift (arr_set (agents s) agentID (AgentInfo.set_dead a true)) ;;
    let s1 := mkState (board s) (timeStep s) (aliveAgents s) ags (bombs s)
                (flames s) in
    put (mkState (board s1) (timeStep s1) (Int.sub (aliveAgents s1) 1)
           (agents s1) (bombs s1) (flames s1))
  else ret tt.

(** The variadic overload [Kill(agentID, args...)]: with an empty pack
    the call is the single-argument [Kill]. *)
Fixpoint Kill_variadic (agentID : Z) (args : list Z) : M State unit :=
  match args with
  | [] => Kill agentID
  | a :: args' => Kill agentID ;; Kill_variadic a args'
  end.

(** A sequence of calls of [Kill], each with its arguments. *)
Fixpoint Kill_calls (calls : list (Z * list Z)) : M State unit :=
  match calls with
  | [] => ret tt
  | (agentID, args) :: calls' =>
      Kill_variadic agentID args ;; Kill_calls calls'
  end.

Definition call_ids (calls : list (Z * list Z)) : list Z :=
  concat (map (fun c => fst c :: snd c) calls).

(** The number of agents whose [dead] flag is set. *)
Definition dead_in (l : list AgentInfo.t) : nat :=
  length (filter (fun a => AgentInfo.dead a = true) l).

Definition dead_count (s : State) : Z := Z.of_nat (dead_in (agents s)).

(** [aliveAgents] counts the agents that are not dead. *)
Definition alive_invariant (s : State) : Prop :=
  Z.of_nat (length (agents s)) = AGENT_COUNT
  /\ aliveAgents s = AGENT_COUNT - dead_count s.

(** What a call of [Kill], or several, does: [s'] has as many agents,
    [aliveAgents] went down by the number of agents that died between
    [s] and [s'], and an agent that was dead in [s] is as it was. *)
Definition kill_effect (s s' : State) : Prop :=
  length (agents s') = length (agents s)
  /\ Int.in_range (aliveAgents s')
  /\ dead_count s <= dead_count s'
  /\ aliveAgents s' = Int.wrap (aliveAgents s - (dead_count s' - dead_count s))
  /\ forall (i : nat) (a : AgentInfo.t),
       agents s !! i = Some a -> AgentInfo.dead a = true ->
       agents s' !! i = Some a.

Definition board_well_formed (s : State) : Prop :=
  Z.of_nat (length (board s)) = BOARD_SIZE
  /\ Forall (fun row => Z.of_nat (length row) = BOARD_SIZE) (board s).


(** ** Further operations of the header *)

(** [operator==] on positions. *)
Definition Position_operator_eq (here other : Position.t) : bool :=
  (Position.x here =? Position.x other)
  && (Position.y here =? Position.y other).

(** [int] multiplication. *)
Definition Int_mul (a b : Z) : Z := Int.wrap (a * b).

(** [std::hash<bboard::Position>]: [std::hash<int>] of the standard
    library, here [hash_int], at [obj.x + obj.y * BOARD_SIZE]. *)
Definition Position_hash (hash_int : Z -> Z) (obj : Position.t) : Z :=
  hash_int (Int.add (Position.x obj) (Int_mul (Position.y obj) BOARD_SIZE)).

(** [n] calls of [ReduceBombTimer] on a bomb. *)
Definition ReduceBombTimer_times (n : nat) (bomb : Bomb) : Bomb :=
  Nat.iter n ReduceBombTimer bomb.

(** A call of a member function of [FixedQueue]. *)
Inductive QueueCall (T : Type) : Type :=
  | CallAddElem (elem : T)
  | CallPopElem
  | CallRemoveAt (removeAt : nat)
  | CallAt (offset : nat).
Arguments CallAddElem {T} _.
Arguments CallPopElem {T}.
Arguments CallRemoveAt {T} _.
Arguments CallAt {T} _.

Section QueueCalls.

Context {T : Type}.
Variable TSize : Z.

(** What a call returns: the element, for [PopElem] and [operator[]]. *)
Definition queue_call (c : QueueCall T) : M (FixedQueue T) (option T) :=
  match c with
  | CallAddElem elem => AddElem TSize elem ;; ret None
  | CallPopElem => e <- PopElem TSize ;; ret (Some e)
  | CallRemoveAt removeAt => RemoveAt TSize (Z.of_nat removeAt) ;; ret None
  | CallAt offset => e <- FixedQueue_at TSize (Z.of_nat offset) ;; ret (Some e)
  end.

Fixpoint queue_calls (cs : list (QueueCall T))
    : M (FixedQueue T) (list (option T)) :=
  match cs with
  | [] => ret []
  | c :: cs' => r <- queue_call c ;; rs <- queue_calls cs' ;; ret (r :: rs)
  end.

(** The queue as a list, front first, for comparison with the circular
    buffer: adding appends at the back when there is room, popping takes
    the front, removing deletes the element at a position, reading
    looks one up. [None] is a call that the list does not allow (no
    room, nothing to pop, no such position). *)
Definition list_call (l : list T) (c : QueueCall T)
    : option (option T * list T) :=
  match c with
  | CallAddElem elem =>
      if decide (Z.of_nat (length l) < TSize) then Some (None, l ++ [elem])
      else None
  | CallPopElem =>
      match l with
      | [] => None
      | e :: l' => Some (Some e, l')
      end
  | CallRemoveAt removeAt =>
      if decide (removeAt < length l)%nat then Some (None, delete removeAt l)
      else None
  | CallAt offset =>
      match l !! offset with
      | Some e => Some (Some e, l)
      | None => None
      end
  end.

Fixpoint list_calls (l : list T) (cs : list (QueueCall T))
    : option (list (option T) * list T) :=
  match cs with
  | [] => Some ([], l)
  | c :: cs' =>
      match list_call l c with
      | Some (r, l1) =>
          match list_calls l1 cs' with
          | Some (rs, l2) => Some (r :: rs, l2)
          | None => None
          end
      | None => None
      end
  end.

End QueueCalls.

(** The agents after the agents listed in [ids] were killed. *)
Definition killed (ids : list Z) (ags : list AgentInfo.t)
    : list AgentInfo.t :=
  imap (fun i a => if decide (Z.of_nat i ∈ ids)
                   then AgentInfo.set_dead a true else a) ags.

(** The state after the agents listed in [ids] were killed: they are
    dead, [aliveAgents] is down by the number of agents that were not
    dead before, and nothing else has changed. *)
Definition Kill_after (ids : list Z) (s : State) : State :=
  mkState (board s) (timeStep s)
    (Int.wrap (aliveAgents s
               - (Z.of_nat (dead_in (killed ids (agents s)))
                  - Z.of_nat (dead_in (agents s)))))
    (killed ids (agents s)) (bombs s) (flames s).

(** * Proofs *)

(** ** Arithmetic of 32-bit integers and of bit fields *)

Section IntFacts.

Lemma wrap_in_range z : Int.in_range z -> Int.wrap z = z.
Proof.
  unfold Int.in_range, Int.wrap, Int.min_signed, Int.max_signed.
  intros Hz. rewrite Z.mod_small; lia.
Qed.

Lemma wrap_range z : Int.in_range (Int.wrap z).
Proof.
  unfold Int.in_range, Int.wrap, Int.min_signed, Int.max_signed.
  pose proof (Z.mod_pos_bound (z + 2 ^ 31) (2 ^ 32)). lia.
Qed.

(** A four-bit field at bit [k], as a quotient and a remainder. *)
Lemma land_field x k :
  0 <= k -> Z.land x (Z.shiftl 15 k) = (x / 2 ^ k) mod 16 * 2 ^ k.
Proof.
  intros Hk.
  rewrite <- Z.shiftl_mul_pow2, <- Z.shiftr_div_pow2 by lia.
  change 16 with (2 ^ 4). rewrite <- Z.land_ones by lia.
  apply Z.bits_inj'; intros n Hn. rewrite Z.land_spec.
  destruct (Z.lt_ge_cases n k) as [Hlt | Hge].
  - rewrite !Z.shiftl_spec_low by lia. apply andb_false_r.
  - rewrite !Z.shiftl_spec by lia. rewrite Z.land_spec, Z.shiftr_spec by lia.
    change (Z.ones 4) with 15. do 2 f_equal. lia.
Qed.

Lemma get_field x k :
  0 <= k -> Int.shr (Z.land x (Z.shiftl 15 k)) k = (x / 2 ^ k) mod 16.
Proof.
  intros Hk. unfold Int.shr. rewrite land_field by lia.
  rewrite Z.shiftr_div_pow2 by lia. apply Z.div_mul.
  apply Z.pow_nonzero; lia.
Qed.

Lemma clear_field x k :
  0 <= k ->
  Z.land x (Z.lnot (Z.shiftl 15 k)) = x - (x / 2 ^ k) mod 16 * 2 ^ k.
Proof.
  intros Hk. rewrite <- Z.sub_land_same_l. now rewrite land_field.
Qed.

Lemma BMB_POS_X_eq x : BMB_POS_X x = x mod 16.
Proof.
  unfold BMB_POS_X. change 0xF with (Z.ones 4). now rewrite Z.land_ones.
Qed.

Lemma BMB_POS_Y_eq x : BMB_POS_Y x = (x / 16) mod 16.
Proof. apply (get_field x 4). lia. Qed.

Lemma BMB_ID_eq x : BMB_ID x = (x / 256) mod 16.
Proof. apply (get_field x 8). lia. Qed.

Lemma BMB_STRENGTH_eq x : BMB_STRENGTH x = (x / 4096) mod 16.
Proof. apply (get_field x 12). lia. Qed.

Lemma BMB_TIME_eq x : BMB_TIME x = (x / 65536) mod 16.
Proof. apply (get_field x 16). lia. Qed.

Lemma cmask0_4_eq x : Z.land x cmask0_4 = x - x mod 16.
Proof.
  pose proof (clear_field x 0) as H. change (Z.shiftl 15 0) with 0xF in H.
  unfold cmask0_4. rewrite H by lia. rewrite Z.div_1_r. lia.
Qed.

Lemma cmask4_8_eq x : Z.land x cmask4_8 = x - (x / 16) mod 16 * 16.
Proof. apply (clear_field x 4). lia. Qed.

Lemma cmask8_12_eq x : Z.land x cmask8_12 = x - (x / 256) mod 16 * 256.
Proof. apply (clear_field x 8). lia. Qed.

Lemma cmask12_16_eq x : Z.land x cmask12_16 = x - (x / 4096) mod 16 * 4096.
Proof. apply (clear_field x 12). lia. Qed.

Lemma cmask16_r_eq x : Z.land x cmask16_r = x mod 65536.
Proof.
  unfold cmask16_r. change 0xFFFF with (Z.ones 16). now rewrite Z.land_ones.
Qed.

Lemma shl_eq a b : 0 <= b -> Int.shl a b = Int.wrap (a * 2 ^ b).
Proof. intros Hb. unfold Int.shl. now rewrite Z.shiftl_mul_pow2. Qed.

End IntFacts.

Ltac bomb_fields :=
  rewrite ?BMB_POS_X_eq, ?BMB_POS_Y_eq, ?BMB_ID_eq, ?BMB_STRENGTH_eq,
    ?BMB_TIME_eq.

Ltac unfold_int :=
  unfold Int.add, Int.sub; rewrite ?shl_eq by lia;
  rewrite ?cmask0_4_eq, ?cmask4_8_eq, ?cmask8_12_eq, ?cmask12_16_eq,
    ?cmask16_r_eq;
  unfold Int.wrap;
  change (2 ^ 4) with 16; change (2 ^ 8) with 256;
  change (2 ^ 12) with 4096; change (2 ^ 16) with 65536;
  change (2 ^ 31) with 2147483648; change (2 ^ 32) with 4294967296.

Ltac solve_fields := unfold_int; Z.div_mod_to_equations; lia.

(** ** The bomb codec *)

Section BombCodec.

Variable bomb : Bomb.

Lemma SetBombPosition_fields x y :
  0 <= x <= 15 -> 0 <= y <= 15 ->
  BMB_POS_X (SetBombPosition bomb x y) = x
  /\ BMB_POS_Y (SetBombPosition bomb x y) = y
  /\ BMB_ID (SetBombPosition bomb x y) = BMB_ID bomb
  /\ BMB_STRENGTH (SetBombPosition bomb x y) = BMB_STRENGTH bomb
  /\ BMB_TIME (SetBombPosition bomb x y) = BMB_TIME bomb.
Proof.
  intros Hx Hy. unfold SetBombPosition. bomb_fields.
  repeat split; solve_fields.
Qed.

Lemma SetBombID_fields id :
  0 <= id <= 15 ->
  BMB_POS_X (SetBombID bomb id) = BMB_POS_X bomb
  /\ BMB_POS_Y (SetBombID bomb id) = BMB_POS_Y bomb
  /\ BMB_ID (SetBombID bomb id) = id
  /\ BMB_STRENGTH (SetBombID bomb id) = BMB_STRENGTH bomb
  /\ BMB_TIME (SetBombID bomb id) = BMB_TIME bomb.
Proof.
  intros Hid. unfold SetBombID. bomb_fields. repeat split; solve_fields.
Qed.

Lemma SetBombStrength_fields strength :
  0 <= strength <= 15 ->
  BMB_POS_X (SetBombStrength bomb strength) = BMB_POS_X bomb
  /\ BMB_POS_Y (SetBombStrength bomb strength) = BMB_POS_Y bomb
  /\ BMB_ID (SetBombStrength bomb strength) = BMB_ID bomb
  /\ BMB_STRENGTH (SetBombStrength bomb strength) = strength
  /\ BMB_TIME (SetBombStrength bomb strength) = BMB_TIME bomb.
Proof.
  intros Hs. unfold SetBombStrength. bomb_fields.
  repeat split; solve_fields.
Qed.

Lemma SetBombTime_fields time :
  0 <= time <= 15 ->
  BMB_POS_X (SetBombTime bomb time) = BMB_POS_X bomb
  /\ BMB_POS_Y (SetBombTime bomb time) = BMB_POS_Y bomb
  /\ BMB_ID (SetBombTime bomb time) = BMB_ID bomb
  /\ BMB_STRENGTH (SetBombTime bomb time) = BMB_STRENGTH bomb
  /\ BMB_TIME (SetBombTime bomb time) = time.
Proof.
  intros Ht. unfold SetBombTime. bomb_fields. repeat split; solve_fields.
Qed.

End BombCodec.

(** ** The circular queue *)

Lemma arr_get_lookup {T : Type} (a : list T) (i : Z) :
  0 <= i -> arr_get a i = a !! Z.to_nat i.
Proof. intros Hi. unfold arr_get. now rewrite decide_True. Qed.

Lemma arr_set_insert {T : Type} (a : list T) (i : Z) (v : T) :
  0 <= i < Z.of_nat (length a) ->
  arr_set a i v = Some (<[Z.to_nat i := v]> a).
Proof. intros Hi. unfold arr_set. now rewrite decide_True. Qed.

(** Two positions less than [n] apart fall into different slots. *)
Lemma mod_add_inj (n a i j : Z) :
  0 <= i < n -> 0 <= j < n -> (a + i) mod n = (a + j) mod n -> i = j.
Proof.
  intros Hi Hj Heq.
  assert (Hn : n <> 0) by lia.
  pose proof (Z.div_mod (a + i) n Hn) as Di.
  pose proof (Z.div_mod (a + j) n Hn) as Dj.
  rewrite Heq in Di.
  assert (Hd : i - j = n * ((a + i) / n - (a + j) / n)) by lia.
  assert (Hz : (a + i) / n - (a + j) / n = 0) by nia.
  lia.
Qed.

(** The rule of a [for] loop over [first .. first + len - 1] with the
    invariant [I]. *)
Lemma for_each_seqZ {St : Type} (I : Z -> St -> Prop)
    (body : Z -> M St unit) (first len : Z) (s : St) :
  0 <= len ->
  (forall i s0, first <= i < first + len -> I i s0 ->
     exists s1, body i s0 = Some (tt, s1) /\ I (i + 1) s1) ->
  I first s ->
  exists s', for_each (seqZ first len) body s = Some (tt, s')
             /\ I (first + len) s'.
Proof.
  intros Hlen. rewrite <- (Z2Nat.id len) by lia.
  generalize (Z.to_nat len) as n. clear len Hlen.
  intros n. revert first s.
  induction n as [| n IH]; intros first s Hbody HI.
  - exists s. simpl. rewrite Z.add_0_r. now split.
  - rewrite seqZ_cons by lia. simpl.
    destruct (Hbody first s) as (s1 & Hs1 & HI1); [lia | assumption |].
    unfold bind at 1. rewrite Hs1.
    replace (Z.pred (Z.of_nat (S n))) with (Z.of_nat n) by lia.
    destruct (IH (Z.succ first) s1) as (s' & Hs' & HI').
    + intros i s0 Hi. apply Hbody. lia.
    + now replace (Z.succ first) with (first + 1) by lia.
    + exists s'. split; [assumption |].
      now replace (first + Z.of_nat (S n)) with (Z.succ first + Z.of_nat n)
        by lia.
Qed.

Section QueueFacts.

Context {T : Type}.
Variable TSize : Z.
Hypothesis TSize_pos : 0 < TSize.
(** No sum of two positions overflows an [int]. *)
Hypothesis TSize_small : 2 * TSize <= Int.max_signed.

Implicit Types (q : FixedQueue T) (l : list T) (e : T).

Lemma slot_rem (i c : Z) :
  0 <= i < TSize -> 0 <= c <= TSize ->
  Int.rem (Int.add i c) TSize = (i + c) mod TSize.
Proof.
  intros Hi Hc. unfold Int.rem, Int.add.
  rewrite wrap_in_range by (unfold Int.in_range, Int.min_signed; lia).
  apply Z.rem_mod_nonneg; lia.
Qed.

Lemma slot_bound (a : Z) : 0 <= a mod TSize < TSize.
Proof. apply Z.mod_pos_bound. lia. Qed.

Lemma logical_insert_eq q (i : nat) e c :
  well_formed TSize q ->
  logical TSize
    (mkFixedQueue
       (<[Z.to_nat ((index q + Z.of_nat i) mod TSize) := e]> (queue q))
       (index q) c) i = Some e.
Proof.
  intros (Hlen & _). unfold logical. simpl.
  apply list_lookup_insert_eq.
  pose proof (slot_bound (index q + Z.of_nat i)). lia.
Qed.

Lemma logical_insert_ne q (i j : nat) e c :
  Z.of_nat i < TSize -> Z.of_nat j < TSize -> i <> j ->
  logical TSize
    (mkFixedQueue
       (<[Z.to_nat ((index q + Z.of_nat i) mod TSize) := e]> (queue q))
       (index q) c) j = logical TSize q j.
Proof.
  intros Hi Hj Hne. unfold logical. simpl.
  apply list_lookup_insert_ne. intros Heq.
  pose proof (slot_bound (index q + Z.of_nat i)).
  pose proof (slot_bound (index q + Z.of_nat j)).
  apply Z2Nat.inj in Heq; [| lia | lia].
  apply mod_add_inj in Heq; lia.
Qed.

Lemma holds_length q l : holds TSize q l -> Z.of_nat (length l) <= TSize.
Proof. intros ((_ & _ & Hc) & Hcount & _). lia. Qed.

(** [AddElem] on a queue with a free slot appends at the back. *)
Lemma AddElem_holds q l e :
  holds TSize q l -> Z.of_nat (length l) < TSize ->
  exists q', AddElem TSize e q = Some (tt, q')
             /\ holds TSize q' (l ++ [e]) /\ index q' = index q.
Proof.
  intros (Hwf & Hcount & Hl) Hfree.
  pose proof Hwf as (Hlen & Hidx & Hc).
  pose proof (slot_bound (index q + Z.of_nat (length l))) as Hslot.
  unfold AddElem, NextPos, bind, get, put, lift.
  rewrite slot_rem, Hcount by lia.
  rewrite arr_set_insert by lia.
  eexists. split; [reflexivity |]. simpl. split; [| reflexivity].
  split; [| split].
  - unfold well_formed. simpl. rewrite length_insert. unfold Int.add.
    rewrite wrap_in_range by (unfold Int.in_range, Int.min_signed; lia).
    lia.
  - simpl. rewrite length_app. simpl. unfold Int.add.
    rewrite wrap_in_range by (unfold Int.in_range, Int.min_signed; lia).
    lia.
  - intros i Hi. rewrite length_app in Hi. simpl in Hi.
    destruct (decide (i = length l)) as [-> | Hne].
    + rewrite logical_insert_eq by assumption.
      now rewrite list_lookup_middle.
    + rewrite logical_insert_ne by lia.
      rewrite lookup_app_l by lia. apply Hl. lia.
Qed.

(** [AddElem] on a full queue: the new element takes the slot of the
    front element, and [count] grows beyond [TSize]. *)
Lemma AddElem_full q e :
  well_formed TSize q -> count q = TSize ->
  AddElem TSize e q
  = Some (tt, mkFixedQueue (<[Z.to_nat (index q) := e]> (queue q))
                (index q) (TSize + 1)).
Proof.
  intros (Hlen & Hidx & Hc) Hfull.
  unfold AddElem, NextPos, bind, get, put, lift.
  rewrite slot_rem, Hfull by lia.
  replace (index q + TSize) with (index q + 1 * TSize) by lia.
  rewrite Z.mod_add, Z.mod_small by lia.
  rewrite arr_set_insert by lia. simpl. unfold Int.add.
  rewrite wrap_in_range by (unfold Int.in_range, Int.min_signed; lia).
  reflexivity.
Qed.

(** [PopElem] on a queue that is not empty returns the front element
    and leaves the others. *)
Lemma PopElem_holds q l e :
  holds TSize q (e :: l) ->
  exists q', PopElem TSize q = Some (e, q') /\ holds TSize q' l.
Proof.
  intros (Hwf & Hcount & Hl).
  pose proof Hwf as (Hlen & Hidx & Hc). simpl in Hcount.
  unfold PopElem, bind, get, put, lift. simpl.
  unfold Int.rem at 2. rewrite Z.rem_mod_nonneg by lia.
  rewrite Z.mod_small by lia.
  rewrite arr_get_lookup by lia.
  pose proof (Hl 0%nat ltac:(simpl; lia)) as H0.
  unfold logical in H0. rewrite Z.add_0_r, Z.mod_small in H0 by lia.
  rewrite H0. simpl.
  eexists. split; [reflexivity |].
  pose proof (slot_bound (index q + 1)) as Hslot.
  split; [| split].
  - unfold well_formed. simpl. rewrite slot_rem by lia. unfold Int.sub.
    rewrite wrap_in_range by (unfold Int.in_range, Int.min_signed; lia).
    lia.
  - simpl. unfold Int.sub.
    rewrite wrap_in_range by (unfold Int.in_range, Int.min_signed; lia).
    lia.
  - intros i Hi. unfold logical. simpl. rewrite slot_rem by lia.
    rewrite Zplus_mod_idemp_l.
    specialize (Hl (S i) ltac:(simpl; lia)). unfold logical in Hl.
    simpl in Hl. rewrite <- Hl. do 3 f_equal. lia.
Qed.

(** [operator[]] reads the [i]-th element from the front and changes
    nothing. *)
Lemma FixedQueue_at_holds q l (i : nat) e :
  holds TSize q l -> l !! i = Some e ->
  FixedQueue_at TSize (Z.of_nat i) q = Some (e, q).
Proof.
  intros Hq He. pose proof (lookup_lt_Some _ _ _ He) as Hi.
  pose proof (holds_length _ _ Hq) as Hle.
  destruct Hq as ((Hlen & Hidx & Hc) & Hcount & Hl).
  unfold FixedQueue_at, bind, get, lift.
  rewrite slot_rem by lia.
  pose proof (slot_bound (index q + Z.of_nat i)) as Hslot.
  rewrite arr_get_lookup by lia.
  specialize (Hl i Hi). unfold logical in Hl. now rewrite Hl, He.
Qed.

Lemma RemoveAt_body_inv q l (r : nat) (i : Z) q0 :
  holds TSize q l ->
  Z.of_nat r + 1 <= i < Z.of_nat (length l) ->
  RemoveAt_inv TSize q l r i q0 ->
  exists q1, RemoveAt_body TSize i q0 = Some (tt, q1)
             /\ RemoveAt_inv TSize q l r (i + 1) q1.
Proof.
  intros Hq Hi (Hwf0 & Hidx0 & Hcount0 & Hl0).
  pose proof (holds_length _ _ Hq) as Hle.
  pose proof Hwf0 as (Hlen & Hidx & Hc).
  pose proof (slot_bound (index q0 + i)) as Hsrc.
  pose proof (slot_bound (index q0 + Z.of_nat (Z.to_nat (i - 1)))) as Hdst.
  assert (Hi' : (Z.to_nat i < length l)%nat) by lia.
  destruct (lookup_lt_is_Some_2 l _ Hi') as [e He].
  assert (Hread : queue q0 !! Z.to_nat ((index q0 + i) mod TSize) = Some e).
  { specialize (Hl0 _ Hi'). unfold logical in Hl0.
    rewrite Z2Nat.id in Hl0 by lia. rewrite Hl0. unfold shifted.
    rewrite decide_False by lia. assumption. }
  assert (Htarget :
    Int.rem (Int.add (Int.sub ((index q0 + i) mod TSize) 1) TSize) TSize
    = (index q0 + Z.of_nat (Z.to_nat (i - 1))) mod TSize).
  { unfold Int.rem, Int.add, Int.sub.
    rewrite !wrap_in_range
      by (unfold Int.in_range, Int.min_signed;
          rewrite ?wrap_in_range
            by (unfold Int.in_range, Int.min_signed; lia); lia).
    rewrite Z.rem_mod_nonneg by lia.
    replace ((index q0 + i) mod TSize - 1 + TSize)
      with ((index q0 + i) mod TSize + (TSize - 1)) by lia.
    rewrite Zplus_mod_idemp_l, Z2Nat.id by lia.
    replace (index q0 + i + (TSize - 1))
      with (index q0 + (i - 1) + 1 * TSize) by lia.
    now rewrite Z.mod_add by lia. }
  unfold RemoveAt_body, bind, get, put, lift.
  rewrite slot_rem by lia. rewrite arr_get_lookup, Hread by lia.
  rewrite Htarget, arr_set_insert by lia.
  eexists. split; [reflexivity |].
  split; [| split; [assumption | split; [assumption |]]].
  - unfold well_formed. simpl. rewrite length_insert. tauto.
  - intros t Ht.
    destruct (decide (t = Z.to_nat (i - 1))) as [-> | Hne].
    + rewrite logical_insert_eq by assumption. unfold shifted.
      rewrite decide_True by lia. rewrite <- He. f_equal. lia.
    + rewrite logical_insert_ne by lia. rewrite Hl0 by assumption.
      unfold shifted. destruct (decide (_ <= _ < i - 1));
        [rewrite decide_True by lia | rewrite decide_False by lia];
        reflexivity.
Qed.

(** [RemoveAt r] deletes the [r]-th element from the front and keeps
    the others in their order. *)
Lemma RemoveAt_holds q l (r : nat) :
  holds TSize q l -> (r < length l)%nat ->
  exists q', RemoveAt TSize (Z.of_nat r) q = Some (tt, q')
             /\ holds TSize q' (delete r l) /\ index q' = index q.
Proof.
  intros Hq Hr. pose proof (holds_length _ _ Hq) as Hle.
  pose proof Hq as (Hwf & Hcount & Hl).
  destruct (for_each_seqZ (RemoveAt_inv TSize q l r) (RemoveAt_body TSize)
              (Z.of_nat r + 1) (count q - (Z.of_nat r + 1)) q)
    as (q1 & Hloop & Hwf1 & Hidx1 & Hcount1 & Hl1).
  - lia.
  - intros i q0 Hi. apply RemoveAt_body_inv; [assumption | lia].
  - repeat split; try apply Hwf. intros t Ht. rewrite Hl by assumption.
    unfold shifted. now rewrite decide_False by lia.
  - unfold RemoveAt, bind at 1, get. unfold Int.add.
    rewrite wrap_in_range by (unfold Int.in_range, Int.min_signed; lia).
    unfold bind at 1. rewrite Hloop. unfold bind, put.
    eexists. split; [reflexivity |]. simpl. split; [| assumption].
    assert (Hdel : length (delete r l) = (length l - 1)%nat).
    { apply length_delete. now apply lookup_lt_is_Some_2. }
    replace (Z.of_nat r + 1 + (count q - (Z.of_nat r + 1)))
      with (Z.of_nat (length l)) in Hl1 by lia.
    destruct Hwf1 as (Hlen1 & Hidx1' & Hc1).
    unfold Int.sub.
    rewrite wrap_in_range by (unfold Int.in_range, Int.min_signed; lia).
    split; [| split].
    + unfold well_formed. simpl. lia.
    + simpl. lia.
    + intros t Ht. unfold logical. simpl.
      specialize (Hl1 t ltac:(lia)). unfold logical in Hl1.
      rewrite Hl1. unfold shifted.
      destruct (decide (r <= t)%nat).
      * rewrite decide_True by lia. now rewrite list_lookup_delete_ge.
      * rewrite decide_False by lia. now rewrite list_lookup_delete_lt by lia.
Qed.

Lemma holds_nil q : well_formed TSize q -> count q = 0 -> holds TSize q [].
Proof.
  intros Hwf Hc. split; [assumption | split; [assumption |]].
  intros i Hi. simpl in Hi. lia.
Qed.

Lemma AddElems_holds l : forall q l0,
  holds TSize q l0 -> Z.of_nat (length l0 + length l) <= TSize ->
  exists q', AddElems TSize l q = Some (tt, q')
             /\ holds TSize q' (l0 ++ l) /\ index q' = index q.
Proof.
  induction l as [| e l IH]; intros q l0 Hq Hfit.
  - exists q. rewrite app_nil_r.
    split; [reflexivity | split; [assumption | reflexivity]].
  - simpl in Hfit.
    destruct (AddElem_holds q l0 e Hq) as (q1 & Hadd & Hq1 & Hidx1);
      [lia |].
    destruct (IH q1 (l0 ++ [e]) Hq1) as (q2 & Hadds & Hq2 & Hidx2).
    { rewrite length_app. simpl. lia. }
    exists q2. simpl. unfold bind. rewrite Hadd.
    rewrite <- app_assoc in Hq2. split; [assumption |].
    split; [assumption | congruence].
Qed.

Lemma PopElems_holds (n : nat) : forall q l,
  holds TSize q l -> (n <= length l)%nat ->
  exists q', PopElems TSize n q = Some (take n l, q')
             /\ holds TSize q' (drop n l).
Proof.
  induction n as [| n IH]; intros q l Hq Hn.
  - exists q. rewrite drop_0. now split.
  - destruct l as [| e l]; [simpl in Hn; lia |]. simpl in Hn.
    destruct (PopElem_holds q l e Hq) as (q1 & Hpop & Hq1).
    destruct (IH q1 l Hq1) as (q2 & Hpops & Hq2); [lia |].
    exists q2. simpl. unfold bind at 1. rewrite Hpop.
    unfold bind at 1. rewrite Hpops. now split.
Qed.

(** Every well-formed queue holds some list of [count] elements. *)
Lemma well_formed_holds q :
  well_formed TSize q -> exists l, holds TSize q l.
Proof.
  intros Hwf. pose proof Hwf as (Hlen & Hidx & Hc).
  assert (Hprefix : forall n : nat, Z.of_nat n <= TSize ->
            exists l, length l = n
                      /\ forall i : nat, (i < n)%nat ->
                           logical TSize q i = l !! i).
  { induction n as [| n IH]; intros Hn.
    - exists []. split; [reflexivity |]. intros i Hi. lia.
    - destruct IH as (l & Hl & Hlog); [lia |].
      pose proof (slot_bound (index q + Z.of_nat n)) as Hslot.
      destruct (lookup_lt_is_Some_2 (queue q)
                  (Z.to_nat ((index q + Z.of_nat n) mod TSize)))
        as [e He]; [lia |].
      exists (l ++ [e]). split; [rewrite length_app; simpl; lia |].
      intros i Hi. destruct (decide (i = n)) as [-> | Hne].
      + rewrite <- Hl at 2. rewrite list_lookup_middle by reflexivity.
        exact He.
      + rewrite lookup_app_l by lia. apply Hlog. lia. }
  destruct (Hprefix (Z.to_nat (count q))) as (l & Hl & Hlog); [lia |].
  exists l. split; [assumption |]. split; [lia |].
  intros i Hi. apply Hlog. lia.
Qed.

End QueueFacts.

(** ** Killing agents *)

Section KillFacts.

Implicit Types (s : State) (a : AgentInfo.t).

Lemma wrap_sub_wrap (a b : Z) : Int.wrap (Int.wrap a - b) = Int.wrap (a - b).
Proof.
  unfold Int.wrap. f_equal.
  replace ((a + 2 ^ 31) mod 2 ^ 32 - 2 ^ 31 - b + 2 ^ 31)
    with ((a + 2 ^ 31) mod 2 ^ 32 - b) by lia.
  rewrite Zminus_mod_idemp_l. f_equal. lia.
Qed.

Lemma dead_in_insert (l : list AgentInfo.t) (i : nat) a :
  l !! i = Some a -> AgentInfo.dead a = false ->
  dead_in (<[i := AgentInfo.set_dead a true]> l) = S (dead_in l).
Proof.
  intros Hi Ha. pose proof (lookup_lt_Some _ _ _ Hi) as Hlt.
  rewrite insert_take_drop by assumption.
  rewrite <- (take_drop_middle l i a Hi) at 3.
  unfold dead_in. rewrite !list.filter_app, !length_app.
  rewrite filter_cons_True by reflexivity.
  rewrite (filter_cons_False _ a) by (rewrite Ha; discriminate).
  simpl. lia.
Qed.

Lemma dead_in_le (l : list AgentInfo.t) : (dead_in l <= length l)%nat.
Proof. apply length_filter. Qed.

Lemma kill_effect_refl s : Int.in_range (aliveAgents s) -> kill_effect s s.
Proof.
  intros Hr. repeat split; try apply Hr; try lia; [| auto].
  rewrite Z.sub_diag, Z.sub_0_r. symmetry. now apply wrap_in_range.
Qed.

Lemma kill_effect_trans s1 s2 s3 :
  kill_effect s1 s2 -> kill_effect s2 s3 -> kill_effect s1 s3.
Proof.
  intros (Hl1 & Hr1 & Hd1 & Ha1 & Hs1) (Hl2 & Hr2 & Hd2 & Ha2 & Hs2).
  repeat split; try apply Hr2; try congruence; try lia.
  - rewrite Ha2, Ha1, wrap_sub_wrap. f_equal. lia.
  - intros i a Hi Hdead. apply Hs2; [| assumption]. now apply Hs1.
Qed.

Lemma Kill_dead s (agentID : Z) a :
  arr_get (agents s) agentID = Some a -> AgentInfo.dead a = true ->
  Kill agentID s = Some (tt, s).
Proof.
  intros Hget Hdead. unfold Kill, bind, get, lift.
  now rewrite Hget, Hdead.
Qed.

Lemma Kill_alive s (agentID : Z) a :
  arr_get (agents s) agentID = Some a -> AgentInfo.dead a = false ->
  Kill agentID s
  = Some (tt, mkState (board s) (timeStep s) (Int.sub (aliveAgents s) 1)
                (<[Z.to_nat agentID := AgentInfo.set_dead a true]> (agents s))
                (bombs s) (flames s)).
Proof.
  intros Hget Halive. unfold Kill, bind, get, lift, put.
  rewrite Hget, Halive. simpl.
  unfold arr_get in Hget. destruct (decide (0 <= agentID)); [| discriminate].
  pose proof (lookup_lt_Some _ _ _ Hget) as Hlt.
  now rewrite arr_set_insert by lia.
Qed.

Lemma arr_get_is_Some {A : Type} (l : list A) (i : Z) :
  0 <= i < Z.of_nat (length l) -> exists v, arr_get l i = Some v.
Proof.
  intros Hi. rewrite arr_get_lookup by lia.
  apply lookup_lt_is_Some_2. lia.
Qed.

Lemma Kill_effect s (agentID : Z) :
  0 <= agentID < Z.of_nat (length (agents s)) ->
  Int.in_range (aliveAgents s) ->
  exists s', Kill agentID s = Some (tt, s') /\ kill_effect s s'.
Proof.
  intros Hid Hr. destruct (arr_get_is_Some (agents s) agentID Hid) as [a Ha].
  destruct (AgentInfo.dead a) eqn:Hdead.
  - exists s. split; [now apply (Kill_dead s agentID a) |].
    now apply kill_effect_refl.
  - eexists. split; [now apply (Kill_alive s agentID a) |].
    rewrite arr_get_lookup in Ha by lia.
    pose proof (dead_in_insert _ _ _ Ha Hdead) as Hins.
    unfold kill_effect, dead_count. simpl.
    rewrite Hins, length_insert. unfold Int.sub.
    repeat split; try apply wrap_range; try lia.
    + f_equal. lia.
    + intros i b Hi Hb. rewrite list_lookup_insert_ne; [assumption |].
      intros <-. congruence.
Qed.

Lemma Kill_variadic_effect (args : list Z) : forall s (agentID : Z),
  Forall (fun i => 0 <= i < Z.of_nat (length (agents s))) (agentID :: args) ->
  Int.in_range (aliveAgents s) ->
  exists s', Kill_variadic agentID args s = Some (tt, s') /\ kill_effect s s'.
Proof.
  induction args as [| a args IH]; intros s agentID Hids Hr.
  - apply Kill_effect; [| assumption]. now inversion Hids.
  - inversion Hids as [| ? ? Hid Hrest]; subst.
    destruct (Kill_effect s agentID Hid Hr) as (s1 & Hk & He1).
    destruct (IH s1 a) as (s2 & Hk2 & He2).
    + destruct He1 as (Hl & _). now rewrite Hl.
    + apply He1.
    + exists s2. simpl. unfold bind. rewrite Hk.
      split; [assumption |]. now apply (kill_effect_trans s s1 s2).
Qed.

Lemma Kill_calls_effect (calls : list (Z * list Z)) : forall s,
  Forall (fun i => 0 <= i < Z.of_nat (length (agents s))) (call_ids calls) ->
  Int.in_range (aliveAgents s) ->
  exists s', Kill_calls calls s = Some (tt, s') /\ kill_effect s s'.
Proof.
  induction calls as [| [agentID args] calls IH]; intros s Hids Hr.
  - exists s. split; [reflexivity | now apply kill_effect_refl].
  - change (call_ids ((agentID, args) :: calls))
      with ((agentID :: args) ++ call_ids calls) in Hids.
    apply Forall_app in Hids as [Hcall Hrest].
    destruct (Kill_variadic_effect args s agentID Hcall Hr)
      as (s1 & Hk & He1).
    destruct (IH s1) as (s2 & Hk2 & He2).
    + destruct He1 as (Hl & _). now rewrite Hl.
    + apply He1.
    + exists s2. simpl. unfold bind. rewrite Hk.
      split; [assumption |]. now apply (kill_effect_trans s s1 s2).
Qed.

Lemma kill_effect_invariant s s' :
  alive_invariant s -> kill_effect s s' -> alive_invariant s'.
Proof.
  intros (Hlen & Halive) (Hl & Hr & Hd & Ha & _).
  split; [lia |]. rewrite Ha, Halive.
  pose proof (dead_in_le (agents s')) as Hle.
  unfold dead_count in *. unfold AGENT_COUNT in *.
  rewrite wrap_in_range by (unfold Int.in_range, Int.min_signed,
                             Int.max_signed; lia).
  lia.
Qed.

End KillFacts.

(** ** The board *)

Section BoardFacts.

Implicit Types (s : State).

Lemma board_row s (y : Z) :
  board_well_formed s -> 0 <= y < BOARD_SIZE ->
  exists row, board s !! Z.to_nat y = Some row
              /\ Z.of_nat (length row) = BOARD_SIZE.
Proof.
  intros (Hlen & Hrows) Hy.
  destruct (lookup_lt_is_Some_2 (board s) (Z.to_nat y)) as [row Hrow];
    [lia |].
  exists row. split; [assumption |].
  now apply (Forall_lookup_1 _ _ _ _ Hrows Hrow).
Qed.

Lemma State_at_cell s (x y : Z) (row : list Z) :
  0 <= x -> 0 <= y -> board s !! Z.to_nat y = Some row ->
  State_at (Position.mk x y) s
  = match row !! Z.to_nat x with
    | Some v => Some (v, s)
    | None => None
    end.
Proof.
  intros Hx Hy Hrow. unfold State_at, bind, get, lift. simpl.
  rewrite (arr_get_lookup _ y) by assumption. rewrite Hrow.
  now rewrite arr_get_lookup by assumption.
Qed.

Lemma PutItem_board s (x y item : Z) (row : list Z) :
  board s !! Z.to_nat y = Some row ->
  0 <= x < Z.of_nat (length row) -> 0 <= y ->
  PutItem x y item s
  = Some (tt, mkState
                (<[Z.to_nat y := <[Z.to_nat x := item]> row]> (board s))
                (timeStep s) (aliveAgents s) (agents s) (bombs s)
                (flames s)).
Proof.
  intros Hrow Hx Hy. pose proof (lookup_lt_Some _ _ _ Hrow) as Hlt.
  unfold PutItem, bind, get, lift, put.
  rewrite (arr_get_lookup _ y) by assumption. rewrite Hrow.
  rewrite arr_set_insert by assumption.
  now rewrite arr_set_insert by lia.
Qed.

End BoardFacts.

(** ** The cell predicates *)

Section CellFacts.

Lemma IS_WOOD_range (x : Z) : IS_WOOD x = true <-> 512 <= x < 768.
Proof.
  unfold IS_WOOD, Int.shr. rewrite Z.shiftr_div_pow2 by lia.
  change (2 ^ 8) with 256. rewrite Z.eqb_eq.
  split; intros H; Z.div_mod_to_equations; lia.
Qed.

Lemma IS_FLAME_range (x : Z) : IS_FLAME x = true <-> 262144 <= x < 327680.
Proof.
  unfold IS_FLAME, Int.shr. rewrite Z.shiftr_div_pow2 by lia.
  change (2 ^ 16) with 65536. rewrite Z.eqb_eq.
  split; intros H; Z.div_mod_to_equations; lia.
Qed.

Lemma IS_POWERUP_range (x : Z) : IS_POWERUP x = true <-> 5 < x < 9.
Proof. unfold IS_POWERUP. rewrite andb_true_iff, !Z.ltb_lt. tauto. Qed.

Lemma IS_WALKABLE_range (x : Z) :
  IS_WALKABLE x = true <-> 5 < x < 9 \/ x = 0.
Proof.
  unfold IS_WALKABLE. rewrite orb_true_iff, IS_POWERUP_range, Z.eqb_eq.
  tauto.
Qed.

Lemma andb_false_of (b1 b2 : bool) :
  (b1 = true -> b2 = true -> False) -> b1 && b2 = false.
Proof. destruct b1, b2; simpl; intros H; try reflexivity; now destruct H. Qed.

Lemma WOOD_value : Item.WOOD = 512.
Proof. reflexivity. Qed.

Lemma FLAMES_value : Item.FLAMES = 262144.
Proof. reflexivity. Qed.

Lemma cell_value_wood (flag : Z) :
  0 <= flag <= 3 -> cell_value (CWood flag) = 512 + flag.
Proof.
  intros Hf. simpl. rewrite WOOD_value. unfold Int.add.
  apply wrap_in_range. unfold Int.in_range, Int.min_signed, Int.max_signed.
  lia.
Qed.

Lemma cell_value_flames (payload : Z) :
  0 <= payload <= 0xFFFF -> cell_value (CFlames payload) = 262144 + payload.
Proof.
  intros Hp. simpl. rewrite FLAMES_value. unfold Int.add.
  apply wrap_in_range. unfold Int.in_range, Int.min_signed, Int.max_signed.
  lia.
Qed.

End CellFacts.

(** * Main results *)

(** C4. Each setter of a bomb, given arguments of four bits, makes the
    accessor of its field return the value set and leaves what the
    accessors of the other fields return as it was: [SetBombPosition]
    sets [BMB_POS_X] and [BMB_POS_Y], [SetBombID] sets [BMB_ID],
    [SetBombStrength] sets [BMB_STRENGTH], [SetBombTime] sets
    [BMB_TIME]. It holds for every [int] value of the bomb. *)
Theorem Bomb_setters_independent (bomb : Bomb) (x y id strength time : Z)
    (Hbomb : Int.in_range bomb)
    (Hx : 0 <= x <= 15) (Hy : 0 <= y <= 15) (Hid : 0 <= id <= 15)
    (Hstrength : 0 <= strength <= 15) (Htime : 0 <= time <= 15) :
  (BMB_POS_X (SetBombPosition bomb x y) = x
   /\ BMB_POS_Y (SetBombPosition bomb x y) = y
   /\ BMB_ID (SetBombPosition bomb x y) = BMB_ID bomb
   /\ BMB_STRENGTH (SetBombPosition bomb x y) = BMB_STRENGTH bomb
   /\ BMB_TIME (SetBombPosition bomb x y) = BMB_TIME bomb)
  /\ (BMB_POS_X (SetBombID bomb id) = BMB_POS_X bomb
      /\ BMB_POS_Y (SetBombID bomb id) = BMB_POS_Y bomb
      /\ BMB_ID (SetBombID bomb id) = id
      /\ BMB_STRENGTH (SetBombID bomb id) = BMB_STRENGTH bomb
      /\ BMB_TIME (SetBombID bomb id) = BMB_TIME bomb)
  /\ (BMB_POS_X (SetBombStrength bomb strength) = BMB_POS_X bomb
      /\ BMB_POS_Y (SetBombStrength bomb strength) = BMB_POS_Y bomb
      /\ BMB_ID (SetBombStrength bomb strength) = BMB_ID bomb
      /\ BMB_STRENGTH (SetBombStrength bomb strength) = strength
      /\ BMB_TIME (SetBombStrength bomb strength) = BMB_TIME bomb)
  /\ (BMB_POS_X (SetBombTime bomb time) = BMB_POS_X bomb
      /\ BMB_POS_Y (SetBombTime bomb time) = BMB_POS_Y bomb
      /\ BMB_ID (SetBombTime bomb time) = BMB_ID bomb
      /\ BMB_STRENGTH (SetBombTime bomb time) = BMB_STRENGTH bomb
      /\ BMB_TIME (SetBombTime bomb time) = time).
Proof.
  split; [now apply SetBombPosition_fields |].
  split; [now apply SetBombID_fields |].
  split; [now apply SetBombStrength_fields | now apply SetBombTime_fields].
Qed.

Lemma Bomb_setters_independent_witness :
  BMB_POS_X (SetBombPosition 0xA5C37 10 9) = 10
  /\ BMB_ID (SetBombID 0xA5C37 3) = 3
  /\ BMB_STRENGTH (SetBombStrength 0xA5C37 2) = 2
  /\ BMB_TIME (SetBombTime 0xA5C37 9) = 9
  /\ BMB_TIME (SetBombID 0xA5C37 3) = BMB_TIME 0xA5C37.
Proof.
  assert (Hr : Int.in_range 0xA5C37)
    by (unfold Int.in_range, Int.min_signed, Int.max_signed; lia).
  destruct (Bomb_setters_independent 0xA5C37 10 9 3 2 9 Hr
              ltac:(lia) ltac:(lia) ltac:(lia) ltac:(lia) ltac:(lia))
    as ((Hpx & _) & (_ & _ & Hi & _ & Hit) & (_ & _ & _ & Hs & _)
        & (_ & _ & _ & _ & Ht)).
  repeat split; assumption.
Defined.

(** C5. On a bomb whose [BMB_TIME] is at least one, [ReduceBombTimer]
    takes one off [BMB_TIME] and leaves [BMB_POS_X], [BMB_POS_Y],
    [BMB_ID] and [BMB_STRENGTH] as they were. *)
Theorem ReduceBombTimer_decrements (bomb : Bomb)
    (Hbomb : Int.in_range bomb) (Htime : 1 <= BMB_TIME bomb) :
  BMB_TIME (ReduceBombTimer bomb) = BMB_TIME bomb - 1
  /\ BMB_POS_X (ReduceBombTimer bomb) = BMB_POS_X bomb
  /\ BMB_POS_Y (ReduceBombTimer bomb) = BMB_POS_Y bomb
  /\ BMB_ID (ReduceBombTimer bomb) = BMB_ID bomb
  /\ BMB_STRENGTH (ReduceBombTimer bomb) = BMB_STRENGTH bomb.
Proof.
  revert Htime. unfold ReduceBombTimer. bomb_fields. intros Htime.
  change (Int.shl 1 16) with 65536. unfold Int.sub, Int.wrap.
  change (2 ^ 31) with 2147483648; change (2 ^ 32) with 4294967296.
  repeat split; Z.div_mod_to_equations; lia.
Qed.

Lemma ReduceBombTimer_decrements_witness :
  BMB_TIME (ReduceBombTimer 0xA5C37) = BMB_TIME 0xA5C37 - 1
  /\ BMB_POS_X (ReduceBombTimer 0xA5C37) = BMB_POS_X 0xA5C37
  /\ BMB_POS_Y (ReduceBombTimer 0xA5C37) = BMB_POS_Y 0xA5C37
  /\ BMB_ID (ReduceBombTimer 0xA5C37) = BMB_ID 0xA5C37
  /\ BMB_STRENGTH (ReduceBombTimer 0xA5C37) = BMB_STRENGTH 0xA5C37.
Proof.
  apply ReduceBombTimer_decrements.
  - unfold Int.in_range, Int.min_signed, Int.max_signed. lia.
  - vm_compute. discriminate.
Defined.

(** C10. On the cell values the game defines ([PASSAGE], [RIGID],
    [WOOD + flag] with [flag] in [0..3], [BOMB], [FLAMES + payload] with
    [payload] in [0..0xFFFF], [FOG], [EXTRABOMB], [INCRRANGE], [KICK],
    [AGENT0] to [AGENT3]) no two of [IS_WOOD], [IS_FLAME] and
    [IS_POWERUP] hold together, and [IS_WALKABLE] holds exactly for
    [PASSAGE], [EXTRABOMB], [INCRRANGE] and [KICK]. *)
Theorem cell_predicates_classify (c : Cell) (Hc : cell_defined c) :
  IS_WOOD (cell_value c) && IS_FLAME (cell_value c) = false
  /\ IS_WOOD (cell_value c) && IS_POWERUP (cell_value c) = false
  /\ IS_FLAME (cell_value c) && IS_POWERUP (cell_value c) = false
  /\ IS_WALKABLE (cell_value c) = is_walkable_cell c.
Proof.
  split; [| split; [| split]].
  - apply andb_false_of. rewrite IS_WOOD_range, IS_FLAME_range. lia.
  - apply andb_false_of. rewrite IS_WOOD_range, IS_POWERUP_range. lia.
  - apply andb_false_of. rewrite IS_FLAME_range, IS_POWERUP_range. lia.
  - destruct c; try reflexivity; simpl in Hc.
    + rewrite cell_value_wood by assumption. simpl.
      apply not_true_is_false. rewrite IS_WALKABLE_range. lia.
    + rewrite cell_value_flames by assumption. simpl.
      apply not_true_is_false. rewrite IS_WALKABLE_range. lia.
Qed.

Lemma cell_predicates_classify_witness :
  IS_WOOD (cell_value (CWood 3)) && IS_FLAME (cell_value (CWood 3)) = false
  /\ IS_WOOD (cell_value (CWood 3)) && IS_POWERUP (cell_value (CWood 3)) = false
  /\ IS_FLAME (cell_value (CWood 3)) && IS_POWERUP (cell_value (CWood 3))
     = false
  /\ IS_WALKABLE (cell_value (CWood 3)) = is_walkable_cell (CWood 3).
Proof. apply cell_predicates_classify. simpl. lia. Defined.

(** C1. Into an empty queue of capacity [TSize], [AddElem] of the
    elements of a list [l] of [n] elements, [1 <= n <= TSize] (the
    queues of [State] have [TSize = MAX_BOMBS = 20]), followed by [n]
    calls of [PopElem], returns the elements of [l] in the order they
    were added, and leaves [count = 0]. *)
Theorem FixedQueue_fifo {T : Type} (TSize : Z) (q : FixedQueue T) (l : list T)
    (TSize_pos : 0 < TSize) (TSize_small : 2 * TSize <= Int.max_signed)
    (Hq : well_formed TSize q) (Hempty : count q = 0)
    (Hn : 1 <= Z.of_nat (length l) <= TSize) :
  exists q1 q2,
    AddElems TSize l q = Some (tt, q1)
    /\ PopElems TSize (length l) q1 = Some (l, q2)
    /\ count q2 = 0.
Proof.
  destruct (AddElems_holds TSize TSize_pos TSize_small l q [])
    as (q1 & Hadd & Hq1 & _).
  { now apply holds_nil. }
  { simpl. lia. }
  simpl in Hq1.
  destruct (PopElems_holds TSize TSize_pos TSize_small (length l) q1 l Hq1)
    as (q2 & Hpop & Hq2); [lia |].
  rewrite firstn_all in Hpop. rewrite drop_all in Hq2.
  exists q1, q2. split; [assumption | split; [assumption |]].
  now destruct Hq2 as (_ & Hc & _).
Qed.

(** C2. On a queue that holds the elements [l], [RemoveAt r] with
    [r < length l] leaves a queue that holds [l] without its [r]-th
    element, the others in their order, with [count] one less. *)
Theorem RemoveAt_preserves_order {T : Type} (TSize : Z) (q : FixedQueue T)
    (l : list T) (r : nat)
    (TSize_pos : 0 < TSize) (TSize_small : 2 * TSize <= Int.max_signed)
    (Hq : holds TSize q l) (Hr : (r < length l)%nat) :
  exists q',
    RemoveAt TSize (Z.of_nat r) q = Some (tt, q')
    /\ holds TSize q' (delete r l)
    /\ count q' = count q - 1
    /\ index q' = index q.
Proof.
  destruct (RemoveAt_holds TSize TSize_pos TSize_small q l r Hq Hr)
    as (q' & Hrm & Hq' & Hidx).
  exists q'. split; [assumption | split; [assumption | split]];
    [| assumption].
  destruct Hq as (_ & Hc & _). destruct Hq' as (_ & Hc' & _).
  rewrite Hc, Hc', length_delete by now apply lookup_lt_is_Some_2.
  lia.
Qed.

(** C8. On a queue that holds the elements [l], [operator[]] at
    [i < length l] yields the [i]-th element of [l] from the front, which
    is the element that the last of [i + 1] successive calls of [PopElem]
    returns, and it leaves the queue as it is. *)
Theorem FixedQueue_at_logical {T : Type} (TSize : Z) (q : FixedQueue T)
    (l : list T) (i : nat)
    (TSize_pos : 0 < TSize) (TSize_small : 2 * TSize <= Int.max_signed)
    (Hq : holds TSize q l) (Hi : (i < length l)%nat) :
  exists e,
    l !! i = Some e
    /\ FixedQueue_at TSize (Z.of_nat i) q = Some (e, q)
    /\ exists popped q',
         PopElems TSize (S i) q = Some (popped, q')
         /\ length popped = S i
         /\ popped !! i = Some e.
Proof.
  destruct (lookup_lt_is_Some_2 l i Hi) as [e He].
  exists e. split; [assumption |].
  split; [now apply (FixedQueue_at_holds TSize TSize_pos TSize_small q l) |].
  destruct (PopElems_holds TSize TSize_pos TSize_small (S i) q l Hq)
    as (q' & Hpop & _); [lia |].
  exists (take (S i) l), q'. split; [assumption |].
  split; [apply length_take_le; lia |].
  rewrite lookup_take_lt by lia. assumption.
Qed.

(** C3, as the code has it. [AddElem] has no check of the capacity: on
    a full queue it stores the element in the slot [(index + count) %
    TSize = index], which is the slot of the front element, and makes
    [count] [TSize + 1]; [index] and the other slots are as they were. *)
Theorem AddElem_full_overwrites_front {T : Type} (TSize : Z)
    (q : FixedQueue T) (e : T)
    (TSize_pos : 0 < TSize) (TSize_small : 2 * TSize <= Int.max_signed)
    (Hq : well_formed TSize q) (Hfull : count q = TSize) :
  exists q',
    AddElem TSize e q = Some (tt, q')
    /\ queue q' = <[Z.to_nat (index q) := e]> (queue q)
    /\ index q' = index q
    /\ count q' = TSize + 1
    /\ logical TSize q' 0 = Some e
    /\ forall i : nat, (0 < i)%nat -> Z.of_nat i < TSize ->
         logical TSize q' i = logical TSize q i.
Proof.
  eexists. split; [now apply AddElem_full |]. simpl.
  split; [reflexivity | split; [reflexivity | split; [reflexivity |]]].
  pose proof Hq as (Hlen & Hidx & Hc).
  assert (Hfront : Z.to_nat (index q)
                   = Z.to_nat ((index q + Z.of_nat 0) mod TSize)).
  { simpl. rewrite Z.add_0_r, Z.mod_small; [reflexivity | lia]. }
  rewrite Hfront. split.
  - now apply logical_insert_eq.
  - intros i Hi Hlt. apply logical_insert_ne; lia.
Qed.

Lemma FixedQueue_fifo_witness :
  exists q1 q2,
    AddElems MAX_BOMBS (seqZ 1 20) (FixedQueue_new (replicate 20 0))
    = Some (tt, q1)
    /\ PopElems MAX_BOMBS (length (seqZ 1 20)) q1 = Some (seqZ 1 20, q2)
    /\ count q2 = 0.
Proof.
  apply (FixedQueue_fifo MAX_BOMBS (FixedQueue_new (replicate 20 0))
           (seqZ 1 20)).
  - reflexivity.
  - vm_compute. discriminate.
  - unfold well_formed. vm_compute. repeat split; discriminate.
  - reflexivity.
  - vm_compute. split; discriminate.
Defined.

Lemma RemoveAt_preserves_order_witness :
  exists q',
    RemoveAt 4 (Z.of_nat 1) (mkFixedQueue [30; 40; 10; 20] 2 4)
    = Some (tt, q')
    /\ holds 4 q' (delete 1%nat [10; 20; 30; 40])
    /\ count q' = count (mkFixedQueue [30; 40; 10; 20] 2 4) - 1
    /\ index q' = index (mkFixedQueue [30; 40; 10; 20] 2 4).
Proof.
  apply (RemoveAt_preserves_order 4 (mkFixedQueue [30; 40; 10; 20] 2 4)
           [10; 20; 30; 40] 1).
  - reflexivity.
  - vm_compute. discriminate.
  - split; [| split].
    + unfold well_formed. vm_compute. repeat split; discriminate.
    + reflexivity.
    + intros [| [| [| [| i]]]] Hi; try reflexivity. simpl in Hi. lia.
  - simpl. lia.
Defined.

Lemma FixedQueue_at_logical_witness :
  exists e,
    [10; 20; 30] !! 2%nat = Some e
    /\ FixedQueue_at 4 (Z.of_nat 2) (mkFixedQueue [30; 0; 10; 20] 2 3)
       = Some (e, mkFixedQueue [30; 0; 10; 20] 2 3)
    /\ exists popped q',
         PopElems 4 3 (mkFixedQueue [30; 0; 10; 20] 2 3) = Some (popped, q')
         /\ length popped = 3%nat
         /\ popped !! 2%nat = Some e.
Proof.
  apply (FixedQueue_at_logical 4 (mkFixedQueue [30; 0; 10; 20] 2 3)
           [10; 20; 30] 2).
  - reflexivity.
  - vm_compute. discriminate.
  - split; [| split].
    + unfold well_formed. vm_compute. repeat split; discriminate.
    + reflexivity.
    + intros [| [| [| i]]] Hi; try reflexivity. simpl in Hi. lia.
  - simpl. lia.
Defined.

Lemma AddElem_full_overwrites_front_witness :
  exists q',
    AddElem MAX_BOMBS 9 (mkFixedQueue (replicate 20 7) 5 20) = Some (tt, q')
    /\ queue q' = <[5%nat := 9]> (replicate 20 7)
    /\ index q' = 5
    /\ count q' = MAX_BOMBS + 1
    /\ logical MAX_BOMBS q' 0 = Some 9
    /\ forall i : nat, (0 < i)%nat -> Z.of_nat i < MAX_BOMBS ->
         logical MAX_BOMBS q' i
         = logical MAX_BOMBS (mkFixedQueue (replicate 20 7) 5 20) i.
Proof.
  apply (AddElem_full_overwrites_front MAX_BOMBS
           (mkFixedQueue (replicate 20 7) 5 20) 9).
  - reflexivity.
  - vm_compute. discriminate.
  - unfold well_formed. vm_compute. repeat split; discriminate.
  - reflexivity.
Defined.

(** C3, as it is stated, fails: the bomb queue of a [State], with
    [MAX_BOMBS] bombs in it, takes one more [AddElem]; the bomb in the
    front slot is replaced and [count] becomes [MAX_BOMBS + 1]. *)
Lemma AddElem_full_not_rejected :
  well_formed MAX_BOMBS (mkFixedQueue (replicate 20 7) 0 20)
  /\ count (mkFixedQueue (replicate 20 7) 0 20) = MAX_BOMBS
  /\ AddElem MAX_BOMBS 9 (mkFixedQueue (replicate 20 7) 0 20)
     = Some (tt, mkFixedQueue (9 :: replicate 19 7) 0 21)
  /\ AddElem MAX_BOMBS 9 (mkFixedQueue (replicate 20 7) 0 20)
     <> Some (tt, mkFixedQueue (replicate 20 7) 0 20).
Proof.
  split; [| split; [| split]].
  - unfold well_formed. vm_compute. repeat split; discriminate.
  - reflexivity.
  - reflexivity.
  - vm_compute. discriminate.
Qed.

Lemma Kill_twice (s : State) (agentID : Z) :
  0 <= agentID < Z.of_nat (length (agents s)) ->
  exists s', Kill agentID s = Some (tt, s') /\ Kill agentID s' = Some (tt, s').
Proof.
  intros Hid. destruct (arr_get_is_Some (agents s) agentID Hid) as [a Ha].
  destruct (AgentInfo.dead a) eqn:Hdead.
  - exists s. split; now apply (Kill_dead s agentID a).
  - eexists. split; [now apply (Kill_alive s agentID a) |].
    apply (Kill_dead _ agentID (AgentInfo.set_dead a true)); [| reflexivity].
    simpl. rewrite arr_get_lookup by lia.
    apply list_lookup_insert_eq. lia.
Qed.

Lemma alive_invariant_range (s : State) :
  alive_invariant s -> 0 <= aliveAgents s <= AGENT_COUNT.
Proof.
  intros (Hlen & Halive). pose proof (dead_in_le (agents s)) as Hle.
  unfold dead_count in Halive. lia.
Qed.

(** C6. [Kill] of an agent that is dead leaves the state as it is;
    [Kill] of the same agent twice does what one [Kill] does; and over
    any sequence of calls of [Kill], with one argument or several,
    [aliveAgents] goes down by the number of agents that died during the
    sequence, while an agent that was dead stays as it was: no agent is
    counted twice. *)
Theorem Kill_idempotent (s : State) (agentID : Z) (calls : list (Z * list Z))
    (Hid : 0 <= agentID < AGENT_COUNT)
    (Hagents : Z.of_nat (length (agents s)) = AGENT_COUNT)
    (Halive : Int.in_range (aliveAgents s))
    (Hcalls : Forall (fun i => 0 <= i < AGENT_COUNT) (call_ids calls)) :
  (forall a, arr_get (agents s) agentID = Some a ->
             AgentInfo.dead a = true -> Kill agentID s = Some (tt, s))
  /\ (exists s', Kill agentID s = Some (tt, s')
                 /\ (Kill agentID ;; Kill agentID)%monad s = Some (tt, s'))
  /\ (exists s', Kill_calls calls s = Some (tt, s')
                 /\ dead_count s <= dead_count s' <= AGENT_COUNT
                 /\ aliveAgents s'
                    = Int.wrap (aliveAgents s - (dead_count s' - dead_count s))
                 /\ forall (i : nat) (a : AgentInfo.t),
                      agents s !! i = Some a -> AgentInfo.dead a = true ->
                      agents s' !! i = Some a).
Proof.
  split; [| split].
  - intros a. apply Kill_dead.
  - destruct (Kill_twice s agentID) as (s' & Hk1 & Hk2); [lia |].
    exists s'. split; [assumption |]. unfold bind. now rewrite Hk1.
  - destruct (Kill_calls_effect calls s) as (s' & Hk & Hl & _ & Hd & Ha & Hs).
    + now rewrite Hagents.
    + assumption.
    + exists s'. split; [assumption |].
      pose proof (dead_in_le (agents s')) as Hle. unfold dead_count in *.
      repeat split; try assumption; lia.
Qed.

Lemma Kill_idempotent_witness :
  let s := mkState [] 0 3
             [AgentInfo.new 1 1; AgentInfo.new 9 1;
              AgentInfo.set_dead (AgentInfo.new 9 9) true; AgentInfo.new 1 9]
             (FixedQueue_new []) (FixedQueue_new []) in
  Kill 2 s = Some (tt, s)
  /\ exists s', Kill_calls [(2, []); (1, [2; 3]); (2, [1])] s = Some (tt, s')
                /\ dead_count s <= dead_count s' <= AGENT_COUNT
                /\ aliveAgents s'
                   = Int.wrap (aliveAgents s - (dead_count s' - dead_count s))
                /\ forall (i : nat) (a : AgentInfo.t),
                     agents s !! i = Some a -> AgentInfo.dead a = true ->
                     agents s' !! i = Some a.
Proof.
  intros s.
  destruct (Kill_idempotent s 2 [(2, []); (1, [2; 3]); (2, [1])])
    as (Hdead & _ & Hcalls).
  - vm_compute. split; [discriminate | reflexivity].
  - reflexivity.
  - vm_compute. split; discriminate.
  - unfold call_ids. simpl.
    repeat (apply Forall_cons;
            [vm_compute; split; [discriminate | reflexivity] |]).
    apply Forall_nil.
  - split; [| exact Hcalls].
    apply (Hdead (AgentInfo.set_dead (AgentInfo.new 9 9) true));
      reflexivity.
Defined.

(** C7. [aliveAgents = AGENT_COUNT - (number of dead agents)] is an
    invariant of [State]: it holds of a default-constructed state, where
    no agent is dead and [aliveAgents = 4]; [Kill] with one argument and
    [Kill] with several keep it; and under it [aliveAgents] is never
    negative. *)
Theorem alive_invariant_preserved (s : State) (agentID : Z) (args : list Z)
    (Hinv : alive_invariant s)
    (Hids : Forall (fun i => 0 <= i < AGENT_COUNT) (agentID :: args)) :
  (forall board p0 p1 p2 p3 bombStorage flameStorage,
     alive_invariant
       (State_new board [p0; p1; p2; p3] bombStorage flameStorage)
     /\ aliveAgents
          (State_new board [p0; p1; p2; p3] bombStorage flameStorage) = 4
     /\ dead_count
          (State_new board [p0; p1; p2; p3] bombStorage flameStorage) = 0)
  /\ (exists s', Kill agentID s = Some (tt, s') /\ alive_invariant s')
  /\ (exists s', Kill_variadic agentID args s = Some (tt, s')
                 /\ alive_invariant s')
  /\ 0 <= aliveAgents s <= AGENT_COUNT.
Proof.
  pose proof (alive_invariant_range s Hinv) as Hrange.
  assert (Hr : Int.in_range (aliveAgents s)).
  { unfold Int.in_range, Int.min_signed, Int.max_signed, AGENT_COUNT in *.
    lia. }
  pose proof Hinv as (Hlen & _).
  split; [| split; [| split]].
  - intros. repeat split.
  - destruct (Kill_effect s agentID) as (s' & Hk & He).
    + inversion Hids; subst. lia.
    + assumption.
    + exists s'. split; [assumption |].
      now apply (kill_effect_invariant s s').
  - destruct (Kill_variadic_effect args s agentID) as (s' & Hk & He).
    + now rewrite Hlen.
    + assumption.
    + exists s'. split; [assumption |].
      now apply (kill_effect_invariant s s').
  - assumption.
Qed.

Lemma alive_invariant_preserved_witness :
  let s := mkState [] 0 3
             [AgentInfo.new 1 1; AgentInfo.new 9 1;
              AgentInfo.set_dead (AgentInfo.new 9 9) true; AgentInfo.new 1 9]
             (FixedQueue_new []) (FixedQueue_new []) in
  (exists s', Kill 1 s = Some (tt, s') /\ alive_invariant s')
  /\ (exists s', Kill_variadic 1 [2; 3; 1] s = Some (tt, s')
                 /\ alive_invariant s')
  /\ 0 <= aliveAgents s <= AGENT_COUNT.
Proof.
  intros s.
  destruct (alive_invariant_preserved s 1 [2; 3; 1]) as (_ & Hrest).
  - split; reflexivity.
  - repeat (apply Forall_cons;
            [vm_compute; split; [discriminate | reflexivity] |]).
    apply Forall_nil.
  - exact Hrest.
Defined.

(** C9. On a board of [BOARD_SIZE] rows of [BOARD_SIZE] cells, after
    [PutItem(x, y, item)] with [x] and [y] on the board,
    [State::operator[]] at [Position{x, y}] returns [item], and at every
    other position of the board it returns what it returned before: both
    index the board as [board[y][x]]. *)
Theorem PutItem_State_at (s : State) (x y item : Z)
    (Hboard : board_well_formed s)
    (Hx : 0 <= x < BOARD_SIZE) (Hy : 0 <= y < BOARD_SIZE) :
  exists s',
    PutItem x y item s = Some (tt, s')
    /\ State_at (Position.mk x y) s' = Some (item, s')
    /\ forall x' y' : Z,
         0 <= x' < BOARD_SIZE -> 0 <= y' < BOARD_SIZE ->
         (x', y') <> (x, y) ->
         exists v, State_at (Position.mk x' y') s = Some (v, s)
                   /\ State_at (Position.mk x' y') s' = Some (v, s').
Proof.
  destruct (board_row s y Hboard Hy) as (row & Hrow & Hlen).
  pose proof (lookup_lt_Some _ _ _ Hrow) as Hylt.
  eexists. split.
  { apply (PutItem_board s x y item row); [assumption | lia | lia]. }
  split.
  - rewrite (State_at_cell _ x y (<[Z.to_nat x := item]> row)); try lia.
    + rewrite list_lookup_insert_eq by lia. reflexivity.
    + simpl. now apply list_lookup_insert_eq.
  - intros x' y' Hx' Hy' Hne.
    destruct (board_row s y' Hboard Hy') as (row' & Hrow' & Hlen').
    destruct (lookup_lt_is_Some_2 row' (Z.to_nat x')) as [v Hv]; [lia |].
    exists v. split.
    + rewrite (State_at_cell s x' y' row') by (assumption || lia).
      now rewrite Hv.
    + destruct (decide (y' = y)) as [-> | Hyne].
      * assert (row' = row) as -> by congruence.
        rewrite (State_at_cell _ x' y (<[Z.to_nat x := item]> row)); try lia.
        -- rewrite list_lookup_insert_ne
             by (intros Heq; apply Hne; f_equal; lia).
           now rewrite Hv.
        -- simpl. now apply list_lookup_insert_eq.
      * rewrite (State_at_cell _ x' y' row'); try lia.
        -- now rewrite Hv.
        -- simpl. rewrite list_lookup_insert_ne by lia. assumption.
Qed.

Lemma PutItem_State_at_witness :
  let s := mkState (replicate 11 (replicate 11 Item.PASSAGE)) 0 4 []
             (FixedQueue_new []) (FixedQueue_new []) in
  exists s',
    PutItem 3 7 Item.RIGID s = Some (tt, s')
    /\ State_at (Position.mk 3 7) s' = Some (Item.RIGID, s')
    /\ forall x' y' : Z,
         0 <= x' < BOARD_SIZE -> 0 <= y' < BOARD_SIZE ->
         (x', y') <> (3, 7) ->
         exists v, State_at (Position.mk x' y') s = Some (v, s)
                   /\ State_at (Position.mk x' y') s' = Some (v, s').
Proof.
  intros s. apply (PutItem_State_at s 3 7 Item.RIGID).
  - split; [reflexivity |].
    repeat (apply Forall_cons; [reflexivity |]). apply Forall_nil.
  - vm_compute. split; [discriminate | reflexivity].
  - vm_compute. split; [discriminate | reflexivity].
Defined.

(** * Further results *)

(** ** Bombs *)

Ltac unfold_setters :=
  unfold SetBombPosition, SetBombID, SetBombStrength, SetBombTime,
    ReduceBombTimer.

Ltac unfold_range :=
  unfold Int.in_range, Int.min_signed, Int.max_signed in *;
  change (2 ^ 31) with 2147483648 in *.

(** The setters without the wrap-around, which they never need. *)
Lemma SetBombPosition_value (bomb : Bomb) (x y : Z) :
  Int.in_range bomb -> 0 <= x <= 15 -> 0 <= y <= 15 ->
  SetBombPosition bomb x y = bomb - bomb mod 256 + x + 16 * y
  /\ Int.in_range (SetBombPosition bomb x y).
Proof.
  intros Hb Hx Hy. unfold_range.
  assert (H : SetBombPosition bomb x y = bomb - bomb mod 256 + x + 16 * y).
  { unfold_setters. unfold_int. Z.div_mod_to_equations. lia. }
  rewrite H. split; [reflexivity |]. Z.div_mod_to_equations. lia.
Qed.

Lemma SetBombID_value (bomb : Bomb) (id : Z) :
  Int.in_range bomb -> 0 <= id <= 15 ->
  SetBombID bomb id = bomb - (bomb / 256) mod 16 * 256 + 256 * id
  /\ Int.in_range (SetBombID bomb id).
Proof.
  intros Hb Hid. unfold_range.
  assert (H : SetBombID bomb id
              = bomb - (bomb / 256) mod 16 * 256 + 256 * id).
  { unfold_setters. unfold_int. Z.div_mod_to_equations. lia. }
  rewrite H. split; [reflexivity |]. Z.div_mod_to_equations. lia.
Qed.

Lemma SetBombStrength_value (bomb : Bomb) (strength : Z) :
  Int.in_range bomb -> 0 <= strength <= 15 ->
  SetBombStrength bomb strength
  = bomb - (bomb / 4096) mod 16 * 4096 + 4096 * strength
  /\ Int.in_range (SetBombStrength bomb strength).
Proof.
  intros Hb Hs. unfold_range.
  assert (H : SetBombStrength bomb strength
              = bomb - (bomb / 4096) mod 16 * 4096 + 4096 * strength).
  { unfold_setters. unfold_int. Z.div_mod_to_equations. lia. }
  rewrite H. split; [reflexivity |]. Z.div_mod_to_equations. lia.
Qed.

Lemma SetBombTime_value (bomb : Bomb) (time : Z) :
  Int.in_range bomb -> 0 <= time <= 15 ->
  SetBombTime bomb time = bomb mod 65536 + 65536 * time
  /\ Int.in_range (SetBombTime bomb time).
Proof.
  intros Hb Ht. unfold_range.
  assert (H : SetBombTime bomb time = bomb mod 65536 + 65536 * time).
  { unfold_setters. unfold_int. Z.div_mod_to_equations. lia. }
  rewrite H. split; [reflexivity |]. Z.div_mod_to_equations. lia.
Qed.


Lemma SetBombPosition_eq b x y :
  Int.in_range b -> 0 <= x <= 15 -> 0 <= y <= 15 ->
  SetBombPosition b x y = b - b mod 256 + x + 16 * y.
Proof. intros. now apply SetBombPosition_value. Qed.
Lemma SetBombID_eq b id :
  Int.in_range b -> 0 <= id <= 15 ->
  SetBombID b id = b - (b / 256) mod 16 * 256 + 256 * id.
Proof. intros. now apply SetBombID_value. Qed.
Lemma SetBombStrength_eq b s :
  Int.in_range b -> 0 <= s <= 15 ->
  SetBombStrength b s = b - (b / 4096) mod 16 * 4096 + 4096 * s.
Proof. intros. now apply SetBombStrength_value. Qed.
Lemma SetBombTime_eq b t :
  Int.in_range b -> 0 <= t <= 15 ->
  SetBombTime b t = b mod 65536 + 65536 * t.
Proof. intros. now apply SetBombTime_value. Qed.
Lemma in_range_pos b x y :
  Int.in_range b -> 0 <= x <= 15 -> 0 <= y <= 15 ->
  Int.in_range (SetBombPosition b x y).
Proof. intros. now apply SetBombPosition_value. Qed.
Lemma in_range_id b x :
  Int.in_range b -> 0 <= x <= 15 -> Int.in_range (SetBombID b x).
Proof. intros. now apply SetBombID_value. Qed.
Lemma in_range_strength b x :
  Int.in_range b -> 0 <= x <= 15 -> Int.in_range (SetBombStrength b x).
Proof. intros. now apply SetBombStrength_value. Qed.
Lemma in_range_time b x :
  Int.in_range b -> 0 <= x <= 15 -> Int.in_range (SetBombTime b x).
Proof. intros. now apply SetBombTime_value. Qed.

Ltac range_tac :=
  first
    [ solve [repeat first [ assumption | apply in_range_pos | apply in_range_id
                          | apply in_range_strength | apply in_range_time ]]
    | unfold_range; Z.div_mod_to_equations; lia ].
Ltac setter_values :=
  rewrite ?SetBombPosition_eq, ?SetBombID_eq, ?SetBombStrength_eq,
    ?SetBombTime_eq by range_tac.

Ltac solve_setters :=
  repeat split; setter_values; setter_values; setter_values; setter_values;
  Z.div_mod_to_equations; lia.


Lemma ReduceBombTimer_fields (bomb : Bomb) :
  1 <= BMB_TIME bomb ->
  BMB_TIME (ReduceBombTimer bomb) = BMB_TIME bomb - 1
  /\ BMB_POS_X (ReduceBombTimer bomb) = BMB_POS_X bomb
  /\ BMB_POS_Y (ReduceBombTimer bomb) = BMB_POS_Y bomb
  /\ BMB_ID (ReduceBombTimer bomb) = BMB_ID bomb
  /\ BMB_STRENGTH (ReduceBombTimer bomb) = BMB_STRENGTH bomb.
Proof.
  unfold ReduceBombTimer. bomb_fields. intros Htime.
  change (Int.shl 1 16) with 65536. unfold Int.sub, Int.wrap.
  change (2 ^ 31) with 2147483648; change (2 ^ 32) with 4294967296.
  repeat split; Z.div_mod_to_equations; lia.
Qed.

(** X1. A bomb built with the four setters, from any previous value, is
    the number [x + 16 y + 256 id + 4096 strength + 65536 time]: nothing
    of the previous value is left, whether [SetBombTime] comes last or
    first. *)
Theorem Bomb_pack (bomb : Bomb) (x y id strength time : Z)
    (Hbomb : Int.in_range bomb)
    (Hx : 0 <= x <= 15) (Hy : 0 <= y <= 15) (Hid : 0 <= id <= 15)
    (Hstrength : 0 <= strength <= 15) (Htime : 0 <= time <= 15) :
  SetBombTime
    (SetBombStrength (SetBombID (SetBombPosition bomb x y) id) strength) time
  = x + 16 * y + 256 * id + 4096 * strength + 65536 * time
  /\ SetBombPosition
       (SetBombID (SetBombStrength (SetBombTime bomb time) strength) id) x y
     = x + 16 * y + 256 * id + 4096 * strength + 65536 * time.
Proof. solve_setters. Qed.

Lemma Bomb_pack_witness :
  SetBombTime (SetBombStrength (SetBombID (SetBombPosition (-1) 5 7) 2) 3) 10
  = 5 + 16 * 7 + 256 * 2 + 4096 * 3 + 65536 * 10
  /\ SetBombPosition (SetBombID (SetBombStrength (SetBombTime (-1) 10) 3) 2) 5 7
     = 5 + 16 * 7 + 256 * 2 + 4096 * 3 + 65536 * 10.
Proof. apply Bomb_pack; [unfold_range |..]; lia. Defined.

(** X2. Setters of different fields commute: the order in which the
    fields of a bomb are set does not matter. *)
Theorem Bomb_setters_commute (bomb : Bomb) (x y id strength time : Z)
    (Hbomb : Int.in_range bomb)
    (Hx : 0 <= x <= 15) (Hy : 0 <= y <= 15) (Hid : 0 <= id <= 15)
    (Hstrength : 0 <= strength <= 15) (Htime : 0 <= time <= 15) :
  SetBombID (SetBombPosition bomb x y) id
  = SetBombPosition (SetBombID bomb id) x y
  /\ SetBombStrength (SetBombPosition bomb x y) strength
     = SetBombPosition (SetBombStrength bomb strength) x y
  /\ SetBombTime (SetBombPosition bomb x y) time
     = SetBombPosition (SetBombTime bomb time) x y
  /\ SetBombStrength (SetBombID bomb id) strength
     = SetBombID (SetBombStrength bomb strength) id
  /\ SetBombTime (SetBombID bomb id) time
     = SetBombID (SetBombTime bomb time) id
  /\ SetBombTime (SetBombStrength bomb strength) time
     = SetBombStrength (SetBombTime bomb time) strength.
Proof. solve_setters. Qed.

Lemma Bomb_setters_commute_witness :
  SetBombTime (SetBombID 0xA5C37 4) 9 = SetBombID (SetBombTime 0xA5C37 9) 4.
Proof.
  apply (Bomb_setters_commute 0xA5C37 0 0 4 0 9); [unfold_range |..]; lia.
Defined.

(** X3. Setting a field twice leaves the value set last. *)
Theorem Bomb_setters_overwrite (bomb : Bomb) (x y x' y' v w : Z)
    (Hbomb : Int.in_range bomb)
    (Hx : 0 <= x <= 15) (Hy : 0 <= y <= 15)
    (Hx' : 0 <= x' <= 15) (Hy' : 0 <= y' <= 15)
    (Hv : 0 <= v <= 15) (Hw : 0 <= w <= 15) :
  SetBombPosition (SetBombPosition bomb x y) x' y' = SetBombPosition bomb x' y'
  /\ SetBombID (SetBombID bomb v) w = SetBombID bomb w
  /\ SetBombStrength (SetBombStrength bomb v) w = SetBombStrength bomb w
  /\ SetBombTime (SetBombTime bomb v) w = SetBombTime bomb w.
Proof. solve_setters. Qed.

Lemma Bomb_setters_overwrite_witness :
  SetBombStrength (SetBombStrength 0xA5C37 1) 2 = SetBombStrength 0xA5C37 2.
Proof.
  apply (Bomb_setters_overwrite 0xA5C37 0 0 0 0 1 2); [unfold_range |..]; lia.
Defined.

(** X4. Writing back the value that an accessor returns changes
    nothing, for the position, the id and the strength of any bomb; for
    the time it needs a bomb of at most 20 bits, because [SetBombTime]
    keeps only the bits below bit 16 of the previous value. *)
Theorem Bomb_set_get (bomb : Bomb) (Hbomb : Int.in_range bomb) :
  SetBombPosition bomb (BMB_POS_X bomb) (BMB_POS_Y bomb) = bomb
  /\ SetBombID bomb (BMB_ID bomb) = bomb
  /\ SetBombStrength bomb (BMB_STRENGTH bomb) = bomb
  /\ SetBombTime bomb (BMB_TIME bomb) = bomb mod 2 ^ 20
  /\ (0 <= bomb < 2 ^ 20 -> SetBombTime bomb (BMB_TIME bomb) = bomb).
Proof.
  revert Hbomb. unfold Int.in_range, Int.min_signed, Int.max_signed.
  unfold_setters. bomb_fields. intros Hbomb.
  change (2 ^ 20) with 1048576.
  repeat split; try intros H20; unfold_int; Z.div_mod_to_equations; lia.
Qed.

Lemma Bomb_set_get_witness :
  SetBombID (-1) (BMB_ID (-1)) = -1
  /\ SetBombTime (-1) (BMB_TIME (-1)) = (-1) mod 2 ^ 20.
Proof.
  destruct (Bomb_set_get (-1)) as (_ & Hid & _ & Ht & _).
  - unfold Int.in_range, Int.min_signed, Int.max_signed. lia.
  - split; assumption.
Defined.

(** X5. Every accessor returns a value of four bits; [BMB_POS] is
    [BMB_POS_X + 16 * BMB_POS_Y]; and a bomb of at most 20 bits is
    determined by its five fields. *)
Theorem Bomb_fields_determine (bomb : Bomb) :
  0 <= BMB_POS_X bomb <= 15 /\ 0 <= BMB_POS_Y bomb <= 15
  /\ 0 <= BMB_ID bomb <= 15 /\ 0 <= BMB_STRENGTH bomb <= 15
  /\ 0 <= BMB_TIME bomb <= 15
  /\ BMB_POS bomb = BMB_POS_X bomb + 16 * BMB_POS_Y bomb
  /\ (0 <= bomb < 2 ^ 20 ->
      bomb = BMB_POS_X bomb + 16 * BMB_POS_Y bomb + 256 * BMB_ID bomb
             + 4096 * BMB_STRENGTH bomb + 65536 * BMB_TIME bomb).
Proof.
  assert (Hpos : BMB_POS bomb = bomb mod 256).
  { unfold BMB_POS. change 0xFF with (Z.ones 8). now rewrite Z.land_ones. }
  rewrite Hpos. bomb_fields. change (2 ^ 20) with 1048576.
  repeat split; [.. | intros H20]; Z.div_mod_to_equations; lia.
Qed.

Lemma Bomb_fields_determine_witness :
  0xA5C37 = BMB_POS_X 0xA5C37 + 16 * BMB_POS_Y 0xA5C37 + 256 * BMB_ID 0xA5C37
            + 4096 * BMB_STRENGTH 0xA5C37 + 65536 * BMB_TIME 0xA5C37.
Proof.
  destruct (Bomb_fields_determine 0xA5C37) as (_ & _ & _ & _ & _ & _ & H).
  apply H. lia.
Defined.

(** X6. [ReduceBombTimer] does not stop at zero: on a bomb whose
    [BMB_TIME] is 0 (and that is at least [2 ^ 16] above the least
    [int], so that the subtraction does not overflow) it leaves
    [BMB_TIME] 15, with the other four fields as they were; a bomb below
    [2 ^ 16] becomes negative. *)
Theorem ReduceBombTimer_underflow (bomb : Bomb)
    (Hbomb : Int.min_signed + 2 ^ 16 <= bomb <= Int.max_signed)
    (Htime : BMB_TIME bomb = 0) :
  BMB_TIME (ReduceBombTimer bomb) = 15
  /\ BMB_POS_X (ReduceBombTimer bomb) = BMB_POS_X bomb
  /\ BMB_POS_Y (ReduceBombTimer bomb) = BMB_POS_Y bomb
  /\ BMB_ID (ReduceBombTimer bomb) = BMB_ID bomb
  /\ BMB_STRENGTH (ReduceBombTimer bomb) = BMB_STRENGTH bomb
  /\ ReduceBombTimer bomb = bomb - 2 ^ 16
  /\ (bomb < 2 ^ 16 -> ReduceBombTimer bomb < 0).
Proof.
  revert Hbomb Htime. unfold Int.min_signed, Int.max_signed.
  unfold ReduceBombTimer. bomb_fields. intros Hbomb Htime.
  change (Int.shl 1 16) with 65536. unfold Int.sub, Int.wrap.
  change (2 ^ 16) with 65536 in *.
  change (2 ^ 31) with 2147483648 in *; change (2 ^ 32) with 4294967296.
  repeat split; try intros H16; Z.div_mod_to_equations; lia.
Qed.

Lemma ReduceBombTimer_underflow_witness :
  BMB_TIME (ReduceBombTimer 0x5C37) = 15
  /\ ReduceBombTimer 0x5C37 = 0x5C37 - 2 ^ 16.
Proof.
  destruct (ReduceBombTimer_underflow 0x5C37)
    as (Ht & _ & _ & _ & _ & Hval & _).
  - unfold Int.min_signed, Int.max_signed. lia.
  - reflexivity.
  - split; assumption.
Defined.

(** X7. [n] calls of [ReduceBombTimer] on a bomb whose [BMB_TIME] is at
    least [n] take [n] off [BMB_TIME] and leave the other fields: a bomb
    whose time was set to [time] shows [BMB_TIME = 0] after [time] calls
    and not before. *)
Theorem ReduceBombTimer_times_countdown (bomb : Bomb) (n : nat)
    (Hbomb : Int.in_range bomb) (Hn : Z.of_nat n <= BMB_TIME bomb) :
  BMB_TIME (ReduceBombTimer_times n bomb) = BMB_TIME bomb - Z.of_nat n
  /\ BMB_POS_X (ReduceBombTimer_times n bomb) = BMB_POS_X bomb
  /\ BMB_POS_Y (ReduceBombTimer_times n bomb) = BMB_POS_Y bomb
  /\ BMB_ID (ReduceBombTimer_times n bomb) = BMB_ID bomb
  /\ BMB_STRENGTH (ReduceBombTimer_times n bomb) = BMB_STRENGTH bomb.
Proof.
  induction n as [| n IH].
  - simpl. rewrite Z.sub_0_r. repeat split.
  - destruct IH as (Ht & Hx & Hy & Hid & Hs); [lia |].
    change (ReduceBombTimer_times (S n) bomb)
      with (ReduceBombTimer (ReduceBombTimer_times n bomb)).
    destruct (ReduceBombTimer_fields (ReduceBombTimer_times n bomb))
      as (Ht' & Hx' & Hy' & Hid' & Hs'); [lia |].
    rewrite Ht', Hx', Hy', Hid', Hs', Ht, Hx, Hy, Hid, Hs.
    repeat split. lia.
Qed.

Lemma ReduceBombTimer_times_countdown_witness :
  BMB_TIME (ReduceBombTimer_times 10 (SetBombTime 0x5C37 BOMB_LIFETIME))
  = BMB_TIME (SetBombTime 0x5C37 BOMB_LIFETIME) - Z.of_nat 10.
Proof.
  apply (ReduceBombTimer_times_countdown
           (SetBombTime 0x5C37 BOMB_LIFETIME) 10).
  - vm_compute. split; discriminate.
  - vm_compute. discriminate.
Defined.

(** X8. The setters do not mask their argument: on a bomb of at most
    20 bits, an [id] of up to eight bits runs over into the strength,
    and a [time] of up to eight bits is read back modulo 16. *)
Theorem Bomb_setters_unmasked (bomb : Bomb) (id time : Z)
    (Hbomb : 0 <= bomb < 2 ^ 20)
    (Hid : 0 <= id <= 255) (Htime : 0 <= time <= 255) :
  BMB_ID (SetBombID bomb id) = id mod 16
  /\ BMB_STRENGTH (SetBombID bomb id) = (BMB_STRENGTH bomb + id / 16) mod 16
  /\ BMB_POS (SetBombID bomb id) = BMB_POS bomb
  /\ BMB_TIME (SetBombTime bomb time) = time mod 16.
Proof.
  assert (Hpos : forall b, BMB_POS b = b mod 256).
  { intros b. unfold BMB_POS. change 0xFF with (Z.ones 8).
    now rewrite Z.land_ones. }
  change (2 ^ 20) with 1048576 in Hbomb.
  rewrite !Hpos. unfold_setters. bomb_fields.
  repeat split; unfold_int; Z.div_mod_to_equations; lia.
Qed.

Lemma Bomb_setters_unmasked_witness :
  BMB_ID (SetBombID 0x5C37 17) = 17 mod 16
  /\ BMB_STRENGTH (SetBombID 0x5C37 17) = (BMB_STRENGTH 0x5C37 + 17 / 16) mod 16.
Proof.
  destruct (Bomb_setters_unmasked 0x5C37 17 0) as (Hi & Hs & _);
    [lia | lia | lia |].
  split; assumption.
Defined.

(** ** Cells and positions *)

(** Drops each wrap-around of a value that is in range, innermost
    first. *)
Ltac unwrap :=
  repeat match goal with
         | |- context [Int.wrap ?z] =>
             rewrite (wrap_in_range z)
               by (unfold Int.in_range, Int.min_signed, Int.max_signed; lia)
         | H : context [Int.wrap ?z] |- _ =>
             rewrite (wrap_in_range z) in H
               by (unfold Int.in_range, Int.min_signed, Int.max_signed; lia)
         end.

Lemma FLAME_ID_eq (x : Z) : FLAME_ID x = (x mod 65536) / 8.
Proof.
  unfold FLAME_ID, Int.shr. change 0xFFFF with (Z.ones 16).
  rewrite Z.land_ones, Z.shiftr_div_pow2 by lia. reflexivity.
Qed.

Lemma POWFLAG_eq (x : Z) : Z.land x 3 = x mod 4.
Proof. change 3 with (Z.ones 2). now rewrite Z.land_ones. Qed.

(** X9. A wood cell [WOOD + flag] with a flag of two bits is recognised
    by [IS_WOOD], by no other predicate, and [WOOD_POWFLAG] gives the
    flag back. *)
Theorem Wood_flag_roundtrip (flag : Z) (Hflag : 0 <= flag <= 3) :
  IS_WOOD (Int.add Item.WOOD flag) = true
  /\ WOOD_POWFLAG (Int.add Item.WOOD flag) = flag
  /\ IS_FLAME (Int.add Item.WOOD flag) = false
  /\ IS_WALKABLE (Int.add Item.WOOD flag) = false.
Proof.
  change (Int.add Item.WOOD flag) with (cell_value (CWood flag)).
  rewrite cell_value_wood by assumption.
  split; [apply IS_WOOD_range; lia |].
  split; [unfold WOOD_POWFLAG; rewrite POWFLAG_eq;
          Z.div_mod_to_equations; lia |].
  split; apply not_true_is_false;
    rewrite ?IS_FLAME_range, ?IS_WALKABLE_range; lia.
Qed.

Lemma Wood_flag_roundtrip_witness :
  IS_WOOD (Int.add Item.WOOD 2) = true
  /\ WOOD_POWFLAG (Int.add Item.WOOD 2) = 2
  /\ IS_FLAME (Int.add Item.WOOD 2) = false
  /\ IS_WALKABLE (Int.add Item.WOOD 2) = false.
Proof. apply Wood_flag_roundtrip. lia. Defined.

(** X10. A flame cell [FLAMES + (id << 3) + flag], with an id of 13
    bits and a flag of two bits, is recognised by [IS_FLAME], by no
    other predicate, and [FLAME_ID] and [FLAME_POWFLAG] give the id and
    the flag back. *)
Theorem Flame_roundtrip (id flag : Z)
    (Hid : 0 <= id < 2 ^ 13) (Hflag : 0 <= flag <= 3) :
  IS_FLAME (Int.add (Int.add Item.FLAMES (Int.shl id 3)) flag) = true
  /\ FLAME_ID (Int.add (Int.add Item.FLAMES (Int.shl id 3)) flag) = id
  /\ FLAME_POWFLAG (Int.add (Int.add Item.FLAMES (Int.shl id 3)) flag) = flag
  /\ IS_WOOD (Int.add (Int.add Item.FLAMES (Int.shl id 3)) flag) = false
  /\ IS_WALKABLE (Int.add (Int.add Item.FLAMES (Int.shl id 3)) flag) = false.
Proof.
  change (2 ^ 13) with 8192 in Hid.
  assert (Hval : Int.add (Int.add Item.FLAMES (Int.shl id 3)) flag
                 = 262144 + 8 * id + flag).
  { rewrite FLAMES_value, shl_eq by lia. unfold Int.add.
    change (2 ^ 3) with 8. unwrap. lia. }
  rewrite Hval.
  split; [apply IS_FLAME_range; lia |].
  split; [rewrite FLAME_ID_eq; Z.div_mod_to_equations; lia |].
  split; [unfold FLAME_POWFLAG; rewrite POWFLAG_eq;
          Z.div_mod_to_equations; lia |].
  split; apply not_true_is_false;
    rewrite ?IS_WOOD_range, ?IS_WALKABLE_range; lia.
Qed.

Lemma Flame_roundtrip_witness :
  IS_FLAME (Int.add (Int.add Item.FLAMES (Int.shl 37 3)) 1) = true
  /\ FLAME_ID (Int.add (Int.add Item.FLAMES (Int.shl 37 3)) 1) = 37
  /\ FLAME_POWFLAG (Int.add (Int.add Item.FLAMES (Int.shl 37 3)) 1) = 1
  /\ IS_WOOD (Int.add (Int.add Item.FLAMES (Int.shl 37 3)) 1) = false
  /\ IS_WALKABLE (Int.add (Int.add Item.FLAMES (Int.shl 37 3)) 1) = false.
Proof. apply Flame_roundtrip; lia. Defined.

(** X11. For every [int], not only for the values of the defined cells:
    no two of [IS_WOOD], [IS_FLAME] and [IS_WALKABLE] hold together, and
    [IS_WALKABLE] holds of exactly the four values [PASSAGE],
    [EXTRABOMB], [INCRRANGE] and [KICK]. *)
Theorem cell_predicates_on_int (x : Z) :
  IS_WOOD x && IS_FLAME x = false
  /\ IS_WOOD x && IS_WALKABLE x = false
  /\ IS_FLAME x && IS_WALKABLE x = false
  /\ IS_WALKABLE x
     = bool_decide
         (x ∈ [Item.PASSAGE; Item.EXTRABOMB; Item.INCRRANGE; Item.KICK]).
Proof.
  split; [| split; [| split]].
  - apply andb_false_of. rewrite IS_WOOD_range, IS_FLAME_range. lia.
  - apply andb_false_of. rewrite IS_WOOD_range, IS_WALKABLE_range. lia.
  - apply andb_false_of. rewrite IS_FLAME_range, IS_WALKABLE_range. lia.
  - destruct (IS_WALKABLE x) eqn:Hw; symmetry.
    + apply bool_decide_eq_true. apply IS_WALKABLE_range in Hw.
      unfold Item.PASSAGE, Item.EXTRABOMB, Item.INCRRANGE, Item.KICK.
      assert (Hx : x = 0 \/ x = 6 \/ x = 7 \/ x = 8) by lia.
      rewrite !elem_of_cons. tauto.
    + apply bool_decide_eq_false. intros Hin.
      apply not_true_iff_false in Hw. apply Hw. apply IS_WALKABLE_range.
      unfold Item.PASSAGE, Item.EXTRABOMB, Item.INCRRANGE, Item.KICK in Hin.
      rewrite !elem_of_cons, elem_of_nil in Hin. lia.
Qed.

(** X12. [operator==] on positions holds exactly of equal positions,
    and, with a [std::hash<int>] that is injective, two positions on the
    board have the same hash only if they are equal. *)
Theorem Position_hash_perfect (hash_int : Z -> Z) (p p' : Position.t)
    (Hinj : forall a b : Z, hash_int a = hash_int b -> a = b)
    (Hp : 0 <= Position.x p < BOARD_SIZE /\ 0 <= Position.y p < BOARD_SIZE)
    (Hp' : 0 <= Position.x p' < BOARD_SIZE
           /\ 0 <= Position.y p' < BOARD_SIZE) :
  (Position_operator_eq p p' = true <-> p = p')
  /\ (Position_hash hash_int p = Position_hash hash_int p' <-> p = p').
Proof.
  destruct p as [x y], p' as [x' y']. unfold BOARD_SIZE in *. simpl in *.
  split.
  - unfold Position_operator_eq. simpl.
    rewrite andb_true_iff, !Z.eqb_eq. split; [intros [-> ->] | intros [=]];
      auto.
  - split; [| intros [= -> ->]; reflexivity].
    unfold Position_hash, Int_mul, Int.add. simpl. intros Hh.
    apply Hinj in Hh. unfold BOARD_SIZE in Hh. unwrap.
    f_equal; lia.
Qed.

Lemma Position_hash_perfect_witness :
  Position_hash (fun z => z) (Position.mk 10 0)
  = Position_hash (fun z => z) (Position.mk 0 1)
  <-> Position.mk 10 0 = Position.mk 0 1.
Proof.
  apply (Position_hash_perfect (fun z => z) (Position.mk 10 0)
           (Position.mk 0 1)).
  - intros a b H. exact H.
  - unfold BOARD_SIZE. simpl. lia.
  - unfold BOARD_SIZE. simpl. lia.
Defined.

(** ** The circular queue, further *)

Section QueueMore.

Context {T : Type}.
Variable TSize : Z.
Hypothesis TSize_pos : 0 < TSize.
Hypothesis TSize_small : 2 * TSize <= Int.max_signed.

Implicit Types (q : FixedQueue T) (l : list T) (e : T).

Lemma RemainingCapacity_eq q :
  well_formed TSize q -> RemainingCapacity TSize q = TSize - count q.
Proof.
  intros (_ & _ & Hc). unfold RemainingCapacity, Int.sub.
  apply wrap_in_range. unfold Int.in_range, Int.min_signed. lia.
Qed.

Lemma queue_call_refines (c : QueueCall T) q l r l' :
  holds TSize q l -> list_call TSize l c = Some (r, l') ->
  exists q', queue_call TSize c q = Some (r, q') /\ holds TSize q' l'.
Proof.
  intros Hq Hc. destruct c as [elem | | removeAt | offset]; simpl in Hc.
  - destruct (decide (Z.of_nat (length l) < TSize)) as [Hroom |];
      [| discriminate].
    injection Hc as <- <-.
    destruct (AddElem_holds TSize TSize_pos TSize_small q l elem Hq Hroom)
      as (q' & Hadd & Hq' & _).
    exists q'. simpl. unfold bind. rewrite Hadd. now split.
  - destruct l as [| e l0]; [discriminate |]. injection Hc as <- <-.
    destruct (PopElem_holds TSize TSize_pos TSize_small q l0 e Hq)
      as (q' & Hpop & Hq').
    exists q'. simpl. unfold bind. rewrite Hpop. now split.
  - destruct (decide (removeAt < length l)%nat) as [Hr |]; [| discriminate].
    injection Hc as <- <-.
    destruct (RemoveAt_holds TSize TSize_pos TSize_small q l removeAt Hq Hr)
      as (q' & Hrm & Hq' & _).
    exists q'. simpl. unfold bind. rewrite Hrm. now split.
  - destruct (l !! offset) as [e |] eqn:He; [| discriminate].
    injection Hc as <- <-.
    exists q. simpl. unfold bind.
    rewrite (FixedQueue_at_holds TSize TSize_pos TSize_small q l offset e Hq He).
    now split.
Qed.

Lemma queue_calls_refine (cs : list (QueueCall T)) : forall q l rs l',
  holds TSize q l -> list_calls TSize l cs = Some (rs, l') ->
  exists q', queue_calls TSize cs q = Some (rs, q') /\ holds TSize q' l'.
Proof.
  induction cs as [| c cs IH]; intros q l rs l' Hq Hcs; simpl in Hcs.
  - injection Hcs as <- <-. exists q. now split.
  - destruct (list_call TSize l c) as [[r l1] |] eqn:Hc; [| discriminate].
    destruct (list_calls TSize l1 cs) as [[rs1 l2] |] eqn:Hrest;
      [| discriminate].
    injection Hcs as <- <-.
    destruct (queue_call_refines c q l r l1 Hq Hc) as (q1 & Hcall & Hq1).
    destruct (IH q1 l1 rs1 l2 Hq1 Hrest) as (q2 & Hcalls & Hq2).
    exists q2. simpl. unfold bind at 1. rewrite Hcall.
    unfold bind at 1. rewrite Hcalls. now split.
Qed.

Lemma PopElem_empty_result q :
  well_formed TSize q -> count q = 0 ->
  exists e, queue q !! Z.to_nat (index q) = Some e
            /\ PopElem TSize q
               = Some (e, mkFixedQueue (queue q)
                            ((index q + 1) mod TSize) (-1)).
Proof.
  intros (Hlen & Hidx & Hc) Hempty.
  destruct (lookup_lt_is_Some_2 (queue q) (Z.to_nat (index q))) as [e He];
    [lia |].
  exists e. split; [assumption |].
  unfold PopElem, bind, get, put, lift. simpl.
  unfold Int.rem at 2. rewrite Z.rem_mod_nonneg, Z.mod_small by lia.
  rewrite arr_get_lookup, He by lia. rewrite slot_rem by lia.
  rewrite Hempty. reflexivity.
Qed.

Lemma RemoveAt_no_copy q (removeAt : Z) :
  well_formed TSize q -> count q <= removeAt + 1 <= Int.max_signed ->
  -1 <= removeAt ->
  RemoveAt TSize removeAt q
  = Some (tt, mkFixedQueue (queue q) (index q) (count q - 1)).
Proof.
  intros (Hlen & Hidx & Hc) Hr Hneg.
  unfold RemoveAt, bind at 1, get. unfold Int.add.
  rewrite wrap_in_range by (unfold Int.in_range, Int.min_signed; lia).
  rewrite seqZ_nil by lia. simpl. unfold bind, ret, get, put, Int.sub.
  rewrite wrap_in_range by (unfold Int.in_range, Int.min_signed; lia).
  reflexivity.
Qed.

Lemma holds_shrink q l :
  holds TSize q l -> l <> [] ->
  holds TSize (mkFixedQueue (queue q) (index q) (count q - 1))
    (take (length l - 1) l).
Proof.
  intros (Hwf & Hcount & Hl) Hne.
  assert (Hpos : (0 < length l)%nat) by (destruct l; simpl; [congruence | lia]).
  destruct Hwf as (Hlen & Hidx & Hc).
  split; [| split].
  - unfold well_formed. simpl. lia.
  - simpl. rewrite length_take_le by lia. lia.
  - intros i Hi. rewrite length_take_le in Hi by lia.
    rewrite lookup_take_lt by lia. unfold logical. simpl.
    apply (Hl i). lia.
Qed.

Lemma FixedQueue_at_slot q (offset : Z) :
  well_formed TSize q -> 0 <= index q + offset <= Int.max_signed ->
  exists e, queue q !! Z.to_nat ((index q + offset) mod TSize) = Some e
            /\ FixedQueue_at TSize offset q = Some (e, q).
Proof.
  intros (Hlen & Hidx & Hc) Ho.
  pose proof (slot_bound TSize TSize_pos (index q + offset)) as Hslot.
  destruct (lookup_lt_is_Some_2 (queue q)
              (Z.to_nat ((index q + offset) mod TSize))) as [e He]; [lia |].
  exists e. split; [assumption |].
  unfold FixedQueue_at, bind, get, lift, Int.rem, Int.add.
  rewrite wrap_in_range by (unfold Int.in_range, Int.min_signed; lia).
  rewrite Z.rem_mod_nonneg by lia.
  rewrite arr_get_lookup by lia. now rewrite He.
Qed.

Lemma FixedQueue_at_negative q (offset : Z) :
  well_formed TSize q -> - TSize < index q + offset < 0 ->
  FixedQueue_at TSize offset q = None.
Proof.
  intros (Hlen & Hidx & Hc) Ho.
  unfold FixedQueue_at, bind, get, lift, Int.rem, Int.add.
  rewrite wrap_in_range
    by (unfold Int.in_range, Int.min_signed, Int.max_signed in *; lia).
  assert (Hrem : Z.rem (index q + offset) TSize = index q + offset).
  { apply Z.rem_small_iff; lia. }
  rewrite Hrem. unfold arr_get. now rewrite decide_False by lia.
Qed.

End QueueMore.

(** X13. [AddElem] on a queue with [RemainingCapacity > 0] appends the
    element at the back: the queue then holds [l ++ [e]], the new
    element is read at offset [length l], [RemainingCapacity] is one
    less and [index] has not moved. *)
Theorem AddElem_appends {T : Type} (TSize : Z) (q : FixedQueue T)
    (l : list T) (e : T)
    (TSize_pos : 0 < TSize) (TSize_small : 2 * TSize <= Int.max_signed)
    (Hq : holds TSize q l) (Hroom : 0 < RemainingCapacity TSize q) :
  exists q',
    AddElem TSize e q = Some (tt, q')
    /\ holds TSize q' (l ++ [e])
    /\ FixedQueue_at TSize (Z.of_nat (length l)) q' = Some (e, q')
    /\ RemainingCapacity TSize q' = RemainingCapacity TSize q - 1
    /\ index q' = index q.
Proof.
  pose proof Hq as (Hwf & Hcount & _).
  rewrite (RemainingCapacity_eq TSize TSize_pos TSize_small q) in * by assumption.
  destruct (AddElem_holds TSize TSize_pos TSize_small q l e Hq)
    as (q' & Hadd & Hq' & Hidx); [lia |].
  pose proof Hq' as (Hwf' & Hcount' & _).
  exists q'. split; [assumption | split; [assumption |]].
  split; [| split; [| assumption]].
  - apply (FixedQueue_at_holds TSize TSize_pos TSize_small q' (l ++ [e]));
      [assumption |].
    now rewrite list_lookup_middle.
  - rewrite (RemainingCapacity_eq TSize TSize_pos TSize_small q') by assumption.
    rewrite Hcount', Hcount, length_app. simpl. lia.
Qed.

Lemma AddElem_appends_witness :
  exists q',
    AddElem 4 40 (mkFixedQueue [30; 0; 10; 20] 2 3) = Some (tt, q')
    /\ holds 4 q' ([10; 20; 30] ++ [40])
    /\ FixedQueue_at 4 (Z.of_nat (length [10; 20; 30])) q' = Some (40, q')
    /\ RemainingCapacity 4 q'
       = RemainingCapacity 4 (mkFixedQueue [30; 0; 10; 20] 2 3) - 1
    /\ index q' = index (mkFixedQueue [30; 0; 10; 20] 2 3).
Proof.
  apply (AddElem_appends 4 (mkFixedQueue [30; 0; 10; 20] 2 3) [10; 20; 30] 40).
  - reflexivity.
  - vm_compute. discriminate.
  - split; [| split].
    + unfold well_formed. vm_compute. repeat split; discriminate.
    + reflexivity.
    + intros [| [| [| i]]] Hi; try reflexivity. simpl in Hi. lia.
  - reflexivity.
Defined.

(** X14. [PopElem] on a queue that holds [e :: l] returns the front
    element [e] and leaves a queue that holds [l]; it does not touch the
    array, moves [index] to the next slot modulo [TSize], and
    [RemainingCapacity] is one more. *)
Theorem PopElem_front {T : Type} (TSize : Z) (q : FixedQueue T)
    (l : list T) (e : T)
    (TSize_pos : 0 < TSize) (TSize_small : 2 * TSize <= Int.max_signed)
    (Hq : holds TSize q (e :: l)) :
  exists q',
    PopElem TSize q = Some (e, q')
    /\ holds TSize q' l
    /\ queue q' = queue q
    /\ index q' = (index q + 1) mod TSize
    /\ RemainingCapacity TSize q' = RemainingCapacity TSize q + 1.
Proof.
  pose proof Hq as (Hwf & Hcount & _). pose proof Hwf as (_ & Hidx & _).
  destruct (PopElem_holds TSize TSize_pos TSize_small q l e Hq)
    as (q' & Hpop & Hq').
  pose proof Hq' as (Hwf' & Hcount' & _).
  exists q'. split; [assumption | split; [assumption |]].
  rewrite (RemainingCapacity_eq TSize TSize_pos TSize_small q) by assumption.
  rewrite (RemainingCapacity_eq TSize TSize_pos TSize_small q') by assumption.
  rewrite Hcount', Hcount.
  unfold PopElem, bind, get, put, lift in Hpop. simpl in Hpop.
  destruct (arr_get (queue q) (Int.rem (index q) TSize)); [| discriminate].
  injection Hpop as _ <-. simpl.
  split; [reflexivity |]. split; [| lia].
  apply (slot_rem TSize TSize_pos TSize_small); lia.
Qed.

Lemma PopElem_front_witness :
  exists q',
    PopElem 4 (mkFixedQueue [30; 0; 10; 20] 3 2) = Some (20, q')
    /\ holds 4 q' [30]
    /\ queue q' = queue (mkFixedQueue [30; 0; 10; 20] 3 2)
    /\ index q' = (index (mkFixedQueue [30; 0; 10; 20] 3 2) + 1) mod 4
    /\ RemainingCapacity 4 q'
       = RemainingCapacity 4 (mkFixedQueue [30; 0; 10; 20] 3 2) + 1.
Proof.
  apply (PopElem_front 4 (mkFixedQueue [30; 0; 10; 20] 3 2) [30] 20).
  - reflexivity.
  - vm_compute. discriminate.
  - split; [| split].
    + unfold well_formed. vm_compute. repeat split; discriminate.
    + reflexivity.
    + intros [| [| i]] Hi; try reflexivity. simpl in Hi. lia.
Defined.

(** X15. [PopElem] does not check for an empty queue: with [count = 0]
    it returns whatever the slot at [index] holds, moves [index] on and
    leaves [count = -1], so that [RemainingCapacity] is [TSize + 1]. *)
Theorem PopElem_empty {T : Type} (TSize : Z) (q : FixedQueue T)
    (TSize_pos : 0 < TSize) (TSize_small : 2 * TSize <= Int.max_signed)
    (Hq : well_formed TSize q) (Hempty : count q = 0) :
  exists e q',
    queue q !! Z.to_nat (index q) = Some e
    /\ PopElem TSize q = Some (e, q')
    /\ queue q' = queue q
    /\ index q' = (index q + 1) mod TSize
    /\ count q' = -1
    /\ RemainingCapacity TSize q' = TSize + 1.
Proof.
  destruct (PopElem_empty_result TSize TSize_pos TSize_small q Hq Hempty)
    as (e & He & Hpop).
  exists e. eexists. split; [assumption | split; [exact Hpop |]].
  simpl. repeat split.
  unfold RemainingCapacity, Int.sub. simpl.
  rewrite wrap_in_range by (unfold Int.in_range, Int.min_signed; lia).
  lia.
Qed.

Lemma PopElem_empty_witness :
  exists e q',
    queue (mkFixedQueue [30; 0; 10; 20] 3 0) !! Z.to_nat 3 = Some e
    /\ PopElem 4 (mkFixedQueue [30; 0; 10; 20] 3 0) = Some (e, q')
    /\ queue q' = [30; 0; 10; 20]
    /\ index q' = (3 + 1) mod 4
    /\ count q' = -1
    /\ RemainingCapacity 4 q' = 4 + 1.
Proof.
  apply (PopElem_empty 4 (mkFixedQueue [30; 0; 10; 20] 3 0)).
  - reflexivity.
  - vm_compute. discriminate.
  - unfold well_formed. vm_compute. repeat split; discriminate.
  - reflexivity.
Defined.

(** X16. The circular buffer behaves as a list: from a queue that
    holds [l], any sequence of calls of [AddElem], [PopElem], [RemoveAt]
    and [operator[]] that the list allows (room for each [AddElem], an
    element for each [PopElem], a position in the list for each
    [RemoveAt] and [operator[]]) returns on the queue what it returns
    on the list, and leaves a queue that holds the list it leaves. *)
Theorem FixedQueue_refines_list {T : Type} (TSize : Z) (q : FixedQueue T)
    (l l' : list T) (cs : list (QueueCall T)) (rs : list (option T))
    (TSize_pos : 0 < TSize) (TSize_small : 2 * TSize <= Int.max_signed)
    (Hq : holds TSize q l)
    (Hcs : list_calls TSize l cs = Some (rs, l')) :
  exists q', queue_calls TSize cs q = Some (rs, q') /\ holds TSize q' l'.
Proof.
  exact (queue_calls_refine TSize TSize_pos TSize_small cs q l rs l' Hq Hcs).
Qed.

Lemma FixedQueue_refines_list_witness :
  exists q',
    queue_calls 3
      [CallAddElem 1; CallAddElem 2; CallPopElem; CallAddElem 3;
       CallAddElem 4; CallAt 2; CallRemoveAt 1; CallPopElem; CallPopElem]
      (FixedQueue_new [0; 0; 0])
    = Some ([None; None; Some 1; None; None; Some 4; None; Some 2; Some 4], q')
    /\ holds 3 q' [].
Proof.
  apply (FixedQueue_refines_list 3 (FixedQueue_new [0; 0; 0]) []).
  - reflexivity.
  - vm_compute. discriminate.
  - split; [| split].
    + unfold well_formed. vm_compute. repeat split; discriminate.
    + reflexivity.
    + intros i Hi. simpl in Hi. lia.
  - reflexivity.
Defined.

(** X17. [RemoveAt] does not check its argument against [count]: with
    [removeAt >= count - 1] nothing is copied and [count] goes down by
    one, so that the last element is dropped whatever [removeAt] is. *)
Theorem RemoveAt_beyond {T : Type} (TSize : Z) (q : FixedQueue T)
    (l : list T) (removeAt : Z)
    (TSize_pos : 0 < TSize) (TSize_small : 2 * TSize <= Int.max_signed)
    (Hq : holds TSize q l) (Hl : l <> [])
    (Hr : Z.of_nat (length l) - 1 <= removeAt < Int.max_signed) :
  RemoveAt TSize removeAt q
  = Some (tt, mkFixedQueue (queue q) (index q) (count q - 1))
  /\ holds TSize (mkFixedQueue (queue q) (index q) (count q - 1))
       (take (length l - 1) l).
Proof.
  pose proof Hq as (Hwf & Hcount & _).
  split; [| now apply holds_shrink].
  apply (RemoveAt_no_copy TSize TSize_small); [assumption | lia | lia].
Qed.

Lemma RemoveAt_beyond_witness :
  RemoveAt 4 7 (mkFixedQueue [30; 0; 10; 20] 2 3)
  = Some (tt, mkFixedQueue [30; 0; 10; 20] 2 (3 - 1))
  /\ holds 4 (mkFixedQueue [30; 0; 10; 20] 2 (3 - 1))
       (take (length [10; 20; 30] - 1) [10; 20; 30]).
Proof.
  apply (RemoveAt_beyond 4 (mkFixedQueue [30; 0; 10; 20] 2 3) [10; 20; 30] 7).
  - reflexivity.
  - vm_compute. discriminate.
  - split; [| split].
    + unfold well_formed. vm_compute. repeat split; discriminate.
    + reflexivity.
    + intros [| [| [| i]]] Hi; try reflexivity. simpl in Hi. lia.
  - discriminate.
  - vm_compute. split; [discriminate | reflexivity].
Defined.

(** X18. [operator[]] does not check its offset against [count]: for
    every offset with [0 <= index + offset] it stays inside the array,
    reads the slot [(index + offset) mod TSize] and changes nothing, so
    that an offset [TSize] further reads the same slot. *)
Theorem FixedQueue_at_wraps {T : Type} (TSize : Z) (q : FixedQueue T)
    (offset : Z)
    (TSize_pos : 0 < TSize) (TSize_small : 2 * TSize <= Int.max_signed)
    (Hq : well_formed TSize q)
    (Ho : 0 <= index q + offset <= Int.max_signed - TSize) :
  exists e,
    queue q !! Z.to_nat ((index q + offset) mod TSize) = Some e
    /\ FixedQueue_at TSize offset q = Some (e, q)
    /\ FixedQueue_at TSize (offset + TSize) q = Some (e, q).
Proof.
  destruct (FixedQueue_at_slot TSize TSize_pos q offset Hq)
    as (e & He & Hat); [lia |].
  destruct (FixedQueue_at_slot TSize TSize_pos q (offset + TSize) Hq)
    as (e' & He' & Hat'); [lia |].
  replace (index q + (offset + TSize)) with (index q + offset + 1 * TSize)
    in He' by lia.
  rewrite Z.mod_add in He' by lia.
  exists e. split; [assumption | split; [assumption |]]. congruence.
Qed.

Lemma FixedQueue_at_wraps_witness :
  exists e,
    queue (mkFixedQueue [30; 0; 10; 20] 2 3) !! Z.to_nat ((2 + 3) mod 4)
    = Some e
    /\ FixedQueue_at 4 3 (mkFixedQueue [30; 0; 10; 20] 2 3)
       = Some (e, mkFixedQueue [30; 0; 10; 20] 2 3)
    /\ FixedQueue_at 4 (3 + 4) (mkFixedQueue [30; 0; 10; 20] 2 3)
       = Some (e, mkFixedQueue [30; 0; 10; 20] 2 3).
Proof.
  apply (FixedQueue_at_wraps 4 (mkFixedQueue [30; 0; 10; 20] 2 3) 3).
  - reflexivity.
  - vm_compute. discriminate.
  - unfold well_formed. vm_compute. repeat split; discriminate.
  - vm_compute. split; discriminate.
Defined.

(** X19. [operator[]] with a negative offset that reaches before slot
    0 ([- TSize < index + offset < 0]) is an access outside of the
    array: [%] truncates towards zero and gives a negative position. *)
Theorem FixedQueue_at_before_front {T : Type} (TSize : Z) (q : FixedQueue T)
    (offset : Z)
    (TSize_pos : 0 < TSize) (TSize_small : 2 * TSize <= Int.max_signed)
    (Hq : well_formed TSize q) (Ho : - TSize < index q + offset < 0) :
  FixedQueue_at TSize offset q = None.
Proof.
  now apply (FixedQueue_at_negative TSize TSize_pos TSize_small).
Qed.

Lemma FixedQueue_at_before_front_witness :
  FixedQueue_at 4 (-1) (mkFixedQueue [30; 0; 10; 20] 0 3) = None.
Proof.
  apply (FixedQueue_at_before_front 4 (mkFixedQueue [30; 0; 10; 20] 0 3) (-1)).
  - reflexivity.
  - vm_compute. discriminate.
  - unfold well_formed. vm_compute. repeat split; discriminate.
  - vm_compute. split; reflexivity.
Defined.

(** ** The state, further *)

Section StateMore.

Implicit Types (s : State) (a : AgentInfo.t).

Lemma set_dead_dead a :
  AgentInfo.dead a = true -> AgentInfo.set_dead a true = a.
Proof. destruct a; simpl; intros ->; reflexivity. Qed.

Lemma killed_nil (ags : list AgentInfo.t) : killed [] ags = ags.
Proof.
  apply list_eq. intros i. unfold killed. rewrite list_lookup_imap.
  destruct (ags !! i); reflexivity.
Qed.

Lemma killed_single (ags : list AgentInfo.t) (i : nat) a :
  ags !! i = Some a ->
  killed [Z.of_nat i] ags = <[i := AgentInfo.set_dead a true]> ags.
Proof.
  intros Hi. apply list_eq. intros j. unfold killed.
  rewrite list_lookup_imap.
  destruct (decide (j = i)) as [-> | Hne].
  - rewrite list_lookup_insert_eq by now apply (lookup_lt_Some _ _ a).
    rewrite Hi. cbn [fmap option_fmap option_map].
    case_decide as Hin; [reflexivity |].
    exfalso. apply Hin. apply list_elem_of_singleton. reflexivity.
  - rewrite list_lookup_insert_ne by congruence.
    destruct (ags !! j); cbn [fmap option_fmap option_map]; [| reflexivity].
    case_decide as Hin; [| reflexivity].
    apply list_elem_of_singleton in Hin. lia.
Qed.

Lemma killed_app (ids1 ids2 : list Z) (ags : list AgentInfo.t) :
  killed ids2 (killed ids1 ags) = killed (ids1 ++ ids2) ags.
Proof.
  apply list_eq. intros i. unfold killed. rewrite !list_lookup_imap.
  destruct (ags !! i) as [a |]; cbn [fmap option_fmap option_map];
    [| reflexivity].
  f_equal.
  repeat case_decide; try reflexivity;
    rewrite elem_of_app in *; tauto.
Qed.

Lemma killed_same_set (ids1 ids2 : list Z) (ags : list AgentInfo.t) :
  (forall i, i ∈ ids1 <-> i ∈ ids2) -> killed ids1 ags = killed ids2 ags.
Proof.
  intros Hset. unfold killed. apply imap_ext. intros i a _.
  apply decide_ext. apply Hset.
Qed.

Lemma Kill_after_nil s :
  Int.in_range (aliveAgents s) -> Kill_after [] s = s.
Proof.
  intros Hr. unfold Kill_after. rewrite killed_nil, Z.sub_diag, Z.sub_0_r.
  rewrite wrap_in_range by assumption. now destruct s.
Qed.

Lemma Kill_after_app (ids1 ids2 : list Z) s :
  Kill_after ids2 (Kill_after ids1 s) = Kill_after (ids1 ++ ids2) s.
Proof.
  unfold Kill_after. simpl. rewrite killed_app, wrap_sub_wrap.
  do 2 f_equal. lia.
Qed.

Lemma Kill_is_Kill_after s (agentID : Z) :
  0 <= agentID < Z.of_nat (length (agents s)) ->
  Int.in_range (aliveAgents s) ->
  Kill agentID s = Some (tt, Kill_after [agentID] s).
Proof.
  intros Hid Hr. destruct (arr_get_is_Some (agents s) agentID Hid) as [a Ha].
  pose proof Ha as Hlook. rewrite arr_get_lookup in Hlook by lia.
  pose proof (killed_single (agents s) (Z.to_nat agentID) a Hlook) as Hk.
  rewrite Z2Nat.id in Hk by lia.
  destruct (AgentInfo.dead a) eqn:Hdead.
  - rewrite (Kill_dead s agentID a Ha Hdead). do 2 f_equal.
    unfold Kill_after. rewrite Hk, set_dead_dead by assumption.
    rewrite list_insert_id by assumption.
    rewrite Z.sub_diag, Z.sub_0_r, wrap_in_range by assumption.
    now destruct s.
  - rewrite (Kill_alive s agentID a Ha Hdead). do 2 f_equal.
    unfold Kill_after. rewrite Hk.
    rewrite (dead_in_insert _ _ _ Hlook Hdead). unfold Int.sub.
    do 2 f_equal. lia.
Qed.

Lemma Kill_after_agents (ids : list Z) s :
  length (agents (Kill_after ids s)) = length (agents s)
  /\ Int.in_range (aliveAgents (Kill_after ids s)).
Proof.
  unfold Kill_after, killed. simpl. rewrite length_imap.
  split; [reflexivity | apply wrap_range].
Qed.

Lemma Kill_variadic_is_Kill_after (args : list Z) : forall s (agentID : Z),
  Forall (fun i => 0 <= i < Z.of_nat (length (agents s))) (agentID :: args) ->
  Int.in_range (aliveAgents s) ->
  Kill_variadic agentID args s = Some (tt, Kill_after (agentID :: args) s).
Proof.
  induction args as [| a args IH]; intros s agentID Hids Hr.
  - apply Kill_is_Kill_after; [| assumption]. now inversion Hids.
  - inversion Hids as [| ? ? Hid Hrest]; subst.
    simpl. unfold bind. rewrite (Kill_is_Kill_after s agentID Hid Hr).
    destruct (Kill_after_agents [agentID] s) as (Hlen & Hr1).
    rewrite IH; [| now rewrite Hlen | assumption].
    now rewrite Kill_after_app.
Qed.

Lemma Kill_calls_is_Kill_after (calls : list (Z * list Z)) : forall s,
  Forall (fun i => 0 <= i < Z.of_nat (length (agents s))) (call_ids calls) ->
  Int.in_range (aliveAgents s) ->
  Kill_calls calls s = Some (tt, Kill_after (call_ids calls) s).
Proof.
  induction calls as [| [agentID args] calls IH]; intros s Hids Hr.
  - simpl. unfold ret. now rewrite Kill_after_nil.
  - change (call_ids ((agentID, args) :: calls))
      with ((agentID :: args) ++ call_ids calls) in *.
    apply Forall_app in Hids as [Hcall Hrest].
    simpl. unfold bind.
    rewrite (Kill_variadic_is_Kill_after args s agentID Hcall Hr).
    destruct (Kill_after_agents (agentID :: args) s) as (Hlen & Hr1).
    rewrite IH; [| now rewrite Hlen | assumption].
    now rewrite Kill_after_app.
Qed.

Lemma Kill_outside s (agentID : Z) :
  ~ (0 <= agentID < Z.of_nat (length (agents s))) -> Kill agentID s = None.
Proof.
  intros Hid. unfold Kill, bind, get, lift, arr_get.
  destruct (decide (0 <= agentID)) as [Hpos |]; [| reflexivity].
  rewrite lookup_ge_None_2 by lia. reflexivity.
Qed.

End StateMore.

Section BoardMore.

Implicit Types (s : State).

Lemma PutItem_on_board s (x y item : Z) :
  board_well_formed s -> 0 <= x < BOARD_SIZE -> 0 <= y < BOARD_SIZE ->
  exists row,
    board s !! Z.to_nat y = Some row
    /\ Z.of_nat (length row) = BOARD_SIZE
    /\ PutItem x y item s
       = Some (tt, mkState
                     (<[Z.to_nat y := <[Z.to_nat x := item]> row]> (board s))
                     (timeStep s) (aliveAgents s) (agents s) (bombs s)
                     (flames s)).
Proof.
  intros Hb Hx Hy. destruct (board_row s y Hb Hy) as (row & Hrow & Hlen).
  exists row. split; [assumption | split; [assumption |]].
  apply PutItem_board; [assumption | lia | lia].
Qed.

Lemma board_well_formed_insert s (x y item : Z) (row : list Z) :
  board_well_formed s -> Z.of_nat (length row) = BOARD_SIZE ->
  board_well_formed
    (mkState (<[Z.to_nat y := <[Z.to_nat x := item]> row]> (board s))
       (timeStep s) (aliveAgents s) (agents s) (bombs s) (flames s)).
Proof.
  intros (Hlen & Hrows) Hrow. split; simpl.
  - now rewrite length_insert.
  - apply Forall_insert; [assumption |]. now rewrite length_insert.
Qed.

End BoardMore.

(** X20. A sequence of calls of [Kill], with one argument or several,
    on agents in [0..3], sets the [dead] flag of exactly the agents it
    names, takes from [aliveAgents] the number of them that were not
    dead, and changes nothing else of the state: not the other fields of
    an agent, nor the board, the time step or the two queues. *)
Theorem Kill_calls_kill_listed (s : State) (calls : list (Z * list Z))
    (Hagents : Z.of_nat (length (agents s)) = AGENT_COUNT)
    (Halive : Int.in_range (aliveAgents s))
    (Hcalls : Forall (fun i => 0 <= i < AGENT_COUNT) (call_ids calls)) :
  Kill_calls calls s = Some (tt, Kill_after (call_ids calls) s)
  /\ forall (i : nat) (a : AgentInfo.t),
       agents s !! i = Some a ->
       agents (Kill_after (call_ids calls) s) !! i
       = Some (if decide (Z.of_nat i ∈ call_ids calls)
               then AgentInfo.set_dead a true else a).
Proof.
  split.
  - apply Kill_calls_is_Kill_after; [now rewrite Hagents | assumption].
  - intros i a Hi. unfold Kill_after, killed. simpl.
    rewrite list_lookup_imap, Hi. reflexivity.
Qed.

Lemma Kill_calls_kill_listed_witness :
  let s := mkState [] 7 3
             [AgentInfo.new 1 1; AgentInfo.new 9 1;
              AgentInfo.set_dead (AgentInfo.new 9 9) true; AgentInfo.new 1 9]
             (FixedQueue_new []) (FixedQueue_new []) in
  Kill_calls [(2, []); (0, [2; 3])] s
  = Some (tt, Kill_after (call_ids [(2, []); (0, [2; 3])]) s).
Proof.
  intros s. apply (Kill_calls_kill_listed s [(2, []); (0, [2; 3])]).
  - reflexivity.
  - vm_compute. split; discriminate.
  - unfold call_ids. simpl.
    repeat (apply Forall_cons;
            [vm_compute; split; [discriminate | reflexivity] |]).
    apply Forall_nil.
Defined.

(** X21. What a sequence of calls of [Kill] leaves depends only on the
    set of agents it names: neither the order of the calls, nor how the
    agents are grouped into calls, nor naming an agent more than once
    makes a difference. *)
Theorem Kill_calls_same_set (s : State) (calls1 calls2 : list (Z * list Z))
    (Hagents : Z.of_nat (length (agents s)) = AGENT_COUNT)
    (Halive : Int.in_range (aliveAgents s))
    (Hcalls1 : Forall (fun i => 0 <= i < AGENT_COUNT) (call_ids calls1))
    (Hcalls2 : Forall (fun i => 0 <= i < AGENT_COUNT) (call_ids calls2))
    (Hset : forall i : Z, i ∈ call_ids calls1 <-> i ∈ call_ids calls2) :
  Kill_calls calls1 s = Kill_calls calls2 s.
Proof.
  rewrite !Kill_calls_is_Kill_after
    by (rewrite ?Hagents; assumption).
  unfold Kill_after.
  now rewrite (killed_same_set _ _ (agents s) Hset).
Qed.

Lemma Kill_calls_same_set_witness :
  let s := State_new [] [(1, 1); (9, 1); (9, 9); (1, 9)] [] [] in
  Kill_calls [(3, [1]); (1, [])] s = Kill_calls [(1, [3; 3])] s.
Proof.
  intros s. apply (Kill_calls_same_set s [(3, [1]); (1, [])] [(1, [3; 3])]).
  - reflexivity.
  - vm_compute. split; discriminate.
  - unfold call_ids. simpl.
    repeat (apply Forall_cons;
            [vm_compute; split; [discriminate | reflexivity] |]).
    apply Forall_nil.
  - unfold call_ids. simpl.
    repeat (apply Forall_cons;
            [vm_compute; split; [discriminate | reflexivity] |]).
    apply Forall_nil.
  - intros i. unfold call_ids. simpl. rewrite !elem_of_cons, !elem_of_nil.
    tauto.
Defined.

(** X22. [Kill] does not check its argument: with an agent id outside
    of [0..3] it accesses [agents] outside of the array. *)
Theorem Kill_out_of_range (s : State) (agentID : Z)
    (Hagents : Z.of_nat (length (agents s)) = AGENT_COUNT)
    (Hid : agentID < 0 \/ AGENT_COUNT <= agentID) :
  Kill agentID s = None.
Proof. apply Kill_outside. lia. Qed.

Lemma Kill_out_of_range_witness :
  Kill 4 (State_new [] [(1, 1); (9, 1); (9, 9); (1, 9)] [] []) = None.
Proof.
  apply Kill_out_of_range; [reflexivity |]. right. vm_compute. discriminate.
Defined.

(** X23. [PutItem] on a board of [BOARD_SIZE] rows of [BOARD_SIZE]
    cells, at a position on the board, leaves such a board, and changes
    nothing of the state but the board. *)
Theorem PutItem_frame (s : State) (x y item : Z)
    (Hboard : board_well_formed s)
    (Hx : 0 <= x < BOARD_SIZE) (Hy : 0 <= y < BOARD_SIZE) :
  exists s',
    PutItem x y item s = Some (tt, s')
    /\ board_well_formed s'
    /\ timeStep s' = timeStep s /\ aliveAgents s' = aliveAgents s
    /\ agents s' = agents s /\ bombs s' = bombs s /\ flames s' = flames s.
Proof.
  destruct (PutItem_on_board s x y item Hboard Hx Hy)
    as (row & Hrow & Hlen & Hput).
  eexists. split; [exact Hput |].
  split; [now apply board_well_formed_insert |].
  simpl. repeat split.
Qed.

Lemma PutItem_frame_witness :
  let s := mkState (replicate 11 (replicate 11 Item.PASSAGE)) 5 4 []
             (FixedQueue_new []) (FixedQueue_new []) in
  exists s',
    PutItem 10 0 Item.BOMB s = Some (tt, s')
    /\ board_well_formed s'
    /\ timeStep s' = timeStep s /\ aliveAgents s' = aliveAgents s
    /\ agents s' = agents s /\ bombs s' = bombs s /\ flames s' = flames s.
Proof.
  intros s. apply (PutItem_frame s 10 0 Item.BOMB).
  - split; [reflexivity |].
    repeat (apply Forall_cons; [reflexivity |]). apply Forall_nil.
  - vm_compute. split; [discriminate | reflexivity].
  - vm_compute. split; [discriminate | reflexivity].
Defined.

(** X24. Of two calls of [PutItem] at one position the second wins, and
    two calls at different positions of the board can be made in either
    order. *)
Theorem PutItem_twice (s : State) (x y x' y' item item' : Z)
    (Hboard : board_well_formed s)
    (Hx : 0 <= x < BOARD_SIZE) (Hy : 0 <= y < BOARD_SIZE)
    (Hx' : 0 <= x' < BOARD_SIZE) (Hy' : 0 <= y' < BOARD_SIZE) :
  (PutItem x y item ;; PutItem x y item')%monad s = PutItem x y item' s
  /\ ((x, y) <> (x', y') ->
      (PutItem x y item ;; PutItem x' y' item')%monad s
      = (PutItem x' y' item' ;; PutItem x y item)%monad s).
Proof.
  destruct (PutItem_on_board s x y item Hboard Hx Hy)
    as (row & Hrow & Hlen & Hput).
  destruct (PutItem_on_board s x' y' item' Hboard Hx' Hy')
    as (row' & Hrow' & Hlen' & Hput').
  pose proof (lookup_lt_Some _ _ _ Hrow) as Hylt.
  pose proof (lookup_lt_Some _ _ _ Hrow') as Hylt'.
  split.
  - destruct (PutItem_on_board s x y item' Hboard Hx Hy)
      as (row2 & Hrow2 & _ & Hput2).
    assert (row2 = row) as -> by congruence.
    unfold bind. rewrite Hput, Hput2.
    rewrite (PutItem_board _ x y item' (<[Z.to_nat x := item]> row));
      [| simpl; now apply list_lookup_insert_eq
       | rewrite length_insert; lia | lia].
    simpl. now rewrite !list_insert_insert_eq.
  - intros Hne. unfold bind. rewrite Hput, Hput'.
    destruct (decide (y' = y)) as [-> | Hyne].
    + assert (row' = row) as -> by congruence.
      assert (Hxne : Z.to_nat x <> Z.to_nat x')
        by (intros Heq; apply Hne; f_equal; lia).
      rewrite (PutItem_board _ x' y item' (<[Z.to_nat x := item]> row));
        [| simpl; now apply list_lookup_insert_eq
         | rewrite length_insert; lia | lia].
      rewrite (PutItem_board _ x y item (<[Z.to_nat x' := item']> row));
        [| simpl; now apply list_lookup_insert_eq
         | rewrite length_insert; lia | lia].
      simpl. rewrite !list_insert_insert_eq.
      now rewrite (list_insert_insert_ne row _ _ item' item)
        by congruence.
    + assert (Hyne' : Z.to_nat y <> Z.to_nat y') by lia.
      rewrite (PutItem_board _ x' y' item' row');
        [| simpl; now rewrite list_lookup_insert_ne by assumption
         | lia | lia].
      rewrite (PutItem_board _ x y item row);
        [| simpl; now rewrite list_lookup_insert_ne by congruence
         | lia | lia].
      simpl. now rewrite list_insert_insert_ne by congruence.
Qed.

Lemma PutItem_twice_witness :
  let s := mkState (replicate 11 (replicate 11 Item.PASSAGE)) 5 4 []
             (FixedQueue_new []) (FixedQueue_new []) in
  (PutItem 3 7 Item.RIGID ;; PutItem 3 7 Item.BOMB)%monad s
  = PutItem 3 7 Item.BOMB s.
Proof.
  intros s.
  apply (PutItem_twice s 3 7 0 0 Item.RIGID Item.BOMB).
  - split; [reflexivity |].
    repeat (apply Forall_cons; [reflexivity |]). apply Forall_nil.
  - vm_compute. split; [discriminate | reflexivity].
  - vm_compute. split; [discriminate | reflexivity].
  - vm_compute. split; [discriminate | reflexivity].
  - vm_compute. split; [discriminate | reflexivity].
Defined.

(** X25. Neither [PutItem] nor [State::operator[]] checks the position:
    with [x] or [y] outside of [0..BOARD_SIZE - 1] both access the board
    outside of its bounds. *)
Theorem board_access_out_of_bounds (s : State) (x y item : Z)
    (Hboard : board_well_formed s)
    (Hout : ~ (0 <= x < BOARD_SIZE /\ 0 <= y < BOARD_SIZE)) :
  PutItem x y item s = None /\ State_at (Position.mk x y) s = None.
Proof.
  destruct Hboard as (Hlen & Hrows).
  unfold PutItem, State_at, bind, get, lift. simpl.
  destruct (arr_get (board s) y) as [row |] eqn:Hrow; [| now split].
  unfold arr_get in Hrow.
  destruct (decide (0 <= y)) as [Hy |]; [| discriminate].
  pose proof (lookup_lt_Some _ _ _ Hrow) as Hylt.
  pose proof (Forall_lookup_1 _ _ _ _ Hrows Hrow) as Hrowlen.
  simpl in Hrowlen.
  assert (Hx : ~ (0 <= x < Z.of_nat (length row))) by lia.
  split.
  - unfold arr_set. now rewrite decide_False by assumption.
  - unfold arr_get. destruct (decide (0 <= x)); [| reflexivity].
    rewrite lookup_ge_None_2 by lia. reflexivity.
Qed.

Lemma board_access_out_of_bounds_witness :
  let s := mkState (replicate 11 (replicate 11 Item.PASSAGE)) 5 4 []
             (FixedQueue_new []) (FixedQueue_new []) in
  PutItem 11 0 Item.BOMB s = None /\ State_at (Position.mk 11 0) s = None.
Proof.
  intros s. apply (board_access_out_of_bounds s 11 0 Item.BOMB).
  - split; [reflexivity |].
    repeat (apply Forall_cons; [reflexivity |]). apply Forall_nil.
  - vm_compute. intros [[_ H] _]. discriminate H.
Defined.
